(** * GtkStatusbar and GtkColorScale: a shallow embedding

    The message stack of [gtk/gtkstatusbar.c] and the trough painting of
    [gtk/gtkcolorscale.c], with the properties stated about them. *)

From Stdlib Require Import ZArith Lia.
From Stdlib Require Import Floats.PrimFloat Floats.SpecFloat Floats.FloatOps.
From Stdlib Require Import Floats.FloatAxioms.
From Stdlib Require Import Numbers.Cyclic.Int63.Uint63.
From stdpp Require Import gmap strings list list_numbers sorting pretty fin_maps.

#[local] Set Warnings "-inexact-float,-clear-no-such-hyp".

Local Open Scope Z_scope.

(** ** Machine integers

    [guint] is a 32-bit unsigned integer; [++] on it wraps around. *)

Definition GUINT_RANGE : Z := 2 ^ 32.

Definition guint_wrap (z : Z) : Z := z mod GUINT_RANGE.

Definition guint_incr (z : Z) : Z := guint_wrap (z + 1).

Module Statusbar.

(** ** Data model *)

(** [struct _GtkStatusbarMsg]; [text] is the [g_strdup]ed copy of the
    text handed to [gtk_statusbar_push], which is never [NULL]. *)
Record GtkStatusbarMsg : Type := Msg {
  text : string;
  context_id : Z;
  message_id : Z
}.

(** The two signals of the class, with the arguments they are emitted
    with; a [NULL] text is [None]. *)
Inductive emission : Type :=
| TEXT_PUSHED (ctx : Z) (txt : option string)
| TEXT_POPPED (ctx : Z) (txt : option string).

(** [GtkStatusbarPrivate], together with what the functions below reach
    through the instance: the text of the label child, the keyed data of
    the GObject ([g_object_get_data] / [g_object_set_data_full]), and the
    list of signal emissions so far, most recent first. *)
Record GtkStatusbar : Type := Statusbar {
  label : string;
  messages : list GtkStatusbarMsg;
  keys : list string;
  seq_context_id : Z;
  seq_message_id : Z;
  object_data : gmap string Z;
  emitted : list emission
}.

Definition set_label (sb : GtkStatusbar) (l : string) : GtkStatusbar :=
  Statusbar l (messages sb) (keys sb) (seq_context_id sb)
            (seq_message_id sb) (object_data sb) (emitted sb).

Definition set_messages (sb : GtkStatusbar) (ms : list GtkStatusbarMsg)
  : GtkStatusbar :=
  Statusbar (label sb) ms (keys sb) (seq_context_id sb)
            (seq_message_id sb) (object_data sb) (emitted sb).

Definition set_seq_message_id (sb : GtkStatusbar) (n : Z) : GtkStatusbar :=
  Statusbar (label sb) (messages sb) (keys sb) (seq_context_id sb)
            n (object_data sb) (emitted sb).

Definition log_emission (sb : GtkStatusbar) (e : emission) : GtkStatusbar :=
  Statusbar (label sb) (messages sb) (keys sb) (seq_context_id sb)
            (seq_message_id sb) (object_data sb) (e :: emitted sb).

(** ** GObject keyed data

    [g_object_get_data] returns [NULL] for a key that was never set, and
    [g_object_set_data_full] with a [NULL] value removes the key.
    [GUINT_TO_POINTER] and [GPOINTER_TO_UINT] are inverse on 32-bit
    values, so the pointer is kept as the integer it carries. *)

Definition g_object_get_data (d : gmap string Z) (key : string) : Z :=
  default 0 (d !! key).

Definition g_object_set_data_full (d : gmap string Z) (key : string) (v : Z)
  : gmap string Z :=
  if v =? 0 then delete key d else <[key := v]> d.

(** ** The functions of gtkstatusbar.c *)

(** [gtk_statusbar_init]; the label child comes from the widget template
    and [ui_label] is the text the template gives it. *)
Definition gtk_statusbar_init (ui_label : string) : GtkStatusbar :=
  {| label := ui_label;
     messages := [];
     keys := [];
     seq_context_id := 1;
     seq_message_id := 1;
     object_data := ∅;
     emitted := [] |}.

(** [gtk_statusbar_update], the class handler of both signals. *)
Definition gtk_statusbar_update (sb : GtkStatusbar) (ctx : Z)
    (txt : option string) : GtkStatusbar :=
  set_label sb (default "" txt).

(** [g_signal_emit] for the two signals: the emission is recorded and the
    class handler, [gtk_statusbar_update] for both, runs. *)
Definition g_signal_emit (sb : GtkStatusbar) (e : emission) : GtkStatusbar :=
  match e with
  | TEXT_PUSHED ctx txt => gtk_statusbar_update (log_emission sb e) ctx txt
  | TEXT_POPPED ctx txt => gtk_statusbar_update (log_emission sb e) ctx txt
  end.

Definition context_key (context_description : string) : string :=
  "gtk-status-bar-context:" +:+ context_description.

(** [gtk_statusbar_get_context_id]; returns the id and the new state. *)
Definition gtk_statusbar_get_context_id (sb : GtkStatusbar)
    (context_description : option string) : Z * GtkStatusbar :=
  match context_description with
  | None => (0, sb)
  | Some descr =>
      let str := context_key descr in
      let id := g_object_get_data (object_data sb) str in
      if id =? 0 then
        let id := seq_context_id sb in
        (id,
         {| label := label sb;
            messages := messages sb;
            keys := str :: keys sb;
            seq_context_id := guint_incr (seq_context_id sb);
            seq_message_id := seq_message_id sb;
            object_data := g_object_set_data_full (object_data sb) str id;
            emitted := emitted sb |})
      else (id, sb)
  end.

(** [gtk_statusbar_msg_create]. *)
Definition gtk_statusbar_msg_create (sb : GtkStatusbar) (ctx : Z)
    (txt : string) : GtkStatusbarMsg * GtkStatusbar :=
  ({| text := txt; context_id := ctx; message_id := seq_message_id sb |},
   set_seq_message_id sb (guint_incr (seq_message_id sb))).

(** [gtk_statusbar_push]; returns the message id and the new state. *)
Definition gtk_statusbar_push (sb : GtkStatusbar) (ctx : Z)
    (txt : option string) : Z * GtkStatusbar :=
  match txt with
  | None => (0, sb)
  | Some t =>
      let '(msg, sb1) := gtk_statusbar_msg_create sb ctx t in
      let sb2 := set_messages sb1 (msg :: messages sb1) in
      (message_id msg,
       g_signal_emit sb2 (TEXT_PUSHED (context_id msg) (Some (text msg))))
  end.

(** The loop of [gtk_statusbar_pop]: unlink the first message whose
    context id is [ctx]. *)
Fixpoint unlink_first_context (ctx : Z) (l : list GtkStatusbarMsg)
  : list GtkStatusbarMsg :=
  match l with
  | [] => []
  | msg :: rest =>
      if context_id msg =? ctx then rest
      else msg :: unlink_first_context ctx rest
  end.

(** [gtk_statusbar_pop]. *)
Definition gtk_statusbar_pop (sb : GtkStatusbar) (ctx : Z) : GtkStatusbar :=
  let sb1 := set_messages sb (unlink_first_context ctx (messages sb)) in
  match messages sb1 with
  | msg :: _ => g_signal_emit sb1 (TEXT_POPPED (context_id msg) (Some (text msg)))
  | [] => g_signal_emit sb1 (TEXT_POPPED 0 None)
  end.

(** The loop of [gtk_statusbar_remove]: unlink the first message whose
    context id and message id are both the given ones. *)
Fixpoint unlink_first_message (ctx mid : Z) (l : list GtkStatusbarMsg)
  : list GtkStatusbarMsg :=
  match l with
  | [] => []
  | msg :: rest =>
      if (context_id msg =? ctx) && (message_id msg =? mid) then rest
      else msg :: unlink_first_message ctx mid rest
  end.

(** [gtk_statusbar_remove]. *)
Definition gtk_statusbar_remove (sb : GtkStatusbar) (ctx mid : Z)
  : GtkStatusbar :=
  if negb (0 <? mid) then sb
  else
    match messages sb with
    | [] => sb
    | msg :: _ =>
        if (context_id msg =? ctx) && (message_id msg =? mid)
        then gtk_statusbar_pop sb ctx
        else set_messages sb (unlink_first_message ctx mid (messages sb))
    end.

(** The loop of [gtk_statusbar_remove_all], which runs over the messages
    below the topmost one and unlinks every one with context id [ctx]. *)
Fixpoint unlink_all_context (ctx : Z) (l : list GtkStatusbarMsg)
  : list GtkStatusbarMsg :=
  match l with
  | [] => []
  | msg :: rest =>
      if context_id msg =? ctx then unlink_all_context ctx rest
      else msg :: unlink_all_context ctx rest
  end.

(** [gtk_statusbar_remove_all]. *)
Definition gtk_statusbar_remove_all (sb : GtkStatusbar) (ctx : Z)
  : GtkStatusbar :=
  match messages sb with
  | [] => sb
  | top :: below =>
      let sb1 := set_messages sb (top :: unlink_all_context ctx below) in
      if context_id top =? ctx then gtk_statusbar_pop sb1 ctx else sb1
  end.

(** ** Call sequences

    A client drives a statusbar through its public functions; [call] is
    one such call with its arguments and [perform] runs it, giving the
    returned [guint] (0 for the [void] functions) and the new state. *)

Inductive call : Type :=
| GET_CONTEXT_ID (context_description : option string)
| PUSH (ctx : Z) (txt : option string)
| POP (ctx : Z)
| REMOVE (ctx mid : Z)
| REMOVE_ALL (ctx : Z).

Definition perform (sb : GtkStatusbar) (c : call) : Z * GtkStatusbar :=
  match c with
  | GET_CONTEXT_ID d => gtk_statusbar_get_context_id sb d
  | PUSH ctx txt => gtk_statusbar_push sb ctx txt
  | POP ctx => (0, gtk_statusbar_pop sb ctx)
  | REMOVE ctx mid => (0, gtk_statusbar_remove sb ctx mid)
  | REMOVE_ALL ctx => (0, gtk_statusbar_remove_all sb ctx)
  end.

(** The state after a sequence of calls. *)
Fixpoint after (sb : GtkStatusbar) (cs : list call) : GtkStatusbar :=
  match cs with
  | [] => sb
  | c :: cs' => after (perform sb c).2 cs'
  end.

Definition is_push (c : call) : bool :=
  match c with PUSH _ (Some _) => true | _ => false end.

Definition is_get_context_id (c : call) : bool :=
  match c with GET_CONTEXT_ID (Some _) => true | _ => false end.

(** The message ids handed out by the pushes of a sequence, in order. *)
Fixpoint pushed_ids (sb : GtkStatusbar) (cs : list call) : list Z :=
  match cs with
  | [] => []
  | c :: cs' =>
      if is_push c then (perform sb c).1 :: pushed_ids (perform sb c).2 cs'
      else pushed_ids (perform sb c).2 cs'
  end.

(** What the label has to show for a given stack: the text of the topmost
    message, and the empty string for an empty stack. *)
Definition top_text (ms : list GtkStatusbarMsg) : string :=
  default "" (text <$> head ms).

Definition shows_top (sb : GtkStatusbar) : Prop :=
  label sb = top_text (messages sb).

(** The statusbar as it is created: the label of the shipped template
    carries no text. *)
Definition gtk_statusbar_new : GtkStatusbar := gtk_statusbar_init "".

(** Sequences that drive a counter through the whole [guint] range. *)
Definition push_pop_rounds (n : nat) : list call :=
  mjoin (replicate n [PUSH 1 (Some "a"); POP 1]).

Definition message_id_wrap_calls : list call :=
  push_pop_rounds (Z.to_nat (GUINT_RANGE - 1)) ++ [PUSH 1 (Some "a")].

Definition numbered_descriptions (n : nat) : list call :=
  (λ i : nat, GET_CONTEXT_ID (Some (pretty i))) <$> seq 0 n.

Definition context_id_wrap_state : GtkStatusbar :=
  after gtk_statusbar_new (numbered_descriptions (Z.to_nat (GUINT_RANGE - 1))).

(** ** Vocabulary of the statements *)

(** The signal [gtk_statusbar_pop] emits for a stack [ms]. *)
Definition popped_signal (ms : list GtkStatusbarMsg) : emission :=
  match ms with
  | msg :: _ => TEXT_POPPED (context_id msg) (Some (text msg))
  | [] => TEXT_POPPED 0 None
  end.

Definition matches (ctx mid : Z) (msg : GtkStatusbarMsg) : Prop :=
  context_id msg = ctx ∧ message_id msg = mid.

#[global] Instance matches_dec ctx mid msg : Decision (matches ctx mid msg).
Proof. unfold matches. apply _. Defined.

(** The number of calls of a sequence that satisfy [p]. *)
Fixpoint count_calls (p : call → bool) (cs : list call) : Z :=
  match cs with
  | [] => 0
  | c :: cs' => (if p c then 1 else 0) + count_calls p cs'
  end.

(** The state of the message counter and of the stack after [n] pushes
    that did not exhaust the counter: the ids on the stack lie in
    [1 .. n] and fall strictly from the top to the bottom. *)
Definition message_ids_upto (n : Z) (sb : GtkStatusbar) : Prop :=
  seq_message_id sb = guint_wrap (1 + n)
  ∧ Forall (λ m, 1 ≤ message_id m ≤ n) (messages sb)
  ∧ StronglySorted (λ a b, message_id b < message_id a) (messages sb).

(** ** Further vocabulary *)

(** The messages of one producer, in stack order. *)
Definition substack (ctx : Z) (ms : list GtkStatusbarMsg)
  : list GtkStatusbarMsg :=
  filter (λ m, context_id m = ctx) ms.

(** The text an emission carries. *)
Definition emission_text (e : emission) : option string :=
  match e with
  | TEXT_PUSHED _ txt => txt
  | TEXT_POPPED _ txt => txt
  end.

(** What the label shows after the emissions [es], most recent first. *)
Definition last_emitted_text (es : list emission) : string :=
  match es with
  | e :: _ => default "" (emission_text e)
  | [] => ""
  end.

(** The registered keys and their ids: the key at position [i] of [keys],
    counted from the most recent one, holds the id [length keys - i], and
    nothing else is registered. *)
Definition keys_numbered (sb : GtkStatusbar) : Prop :=
  (∀ (i : nat) key, keys sb !! i = Some key →
      object_data sb !! key = Some (Z.of_nat (length (keys sb)) - Z.of_nat i))
  ∧ (∀ key v, object_data sb !! key = Some v → key ∈ keys sb).

(** The descriptions a sequence of calls asks a context id for. *)
Fixpoint descriptions (cs : list call) : gset string :=
  match cs with
  | [] => ∅
  | GET_CONTEXT_ID (Some d) :: cs' => {[ d ]} ∪ descriptions cs'
  | _ :: cs' => descriptions cs'
  end.

(** The state of the context counter, of the list of keys and of the
    registered ids once exactly the descriptions [ds] have been
    registered. *)
Definition registers (ds : gset string) (sb : GtkStatusbar) : Prop :=
  seq_context_id sb = guint_wrap (1 + Z.of_nat (size ds))
  ∧ length (keys sb) = size ds
  ∧ keys_numbered sb
  ∧ (∀ key, key ∈ keys sb ↔ ∃ d, d ∈ ds ∧ key = context_key d).

(** All counters and stored ids are values of a [guint]. *)
Definition guint_valued (sb : GtkStatusbar) : Prop :=
  0 ≤ seq_context_id sb < GUINT_RANGE
  ∧ 0 ≤ seq_message_id sb < GUINT_RANGE
  ∧ Forall (λ m, 0 ≤ message_id m < GUINT_RANGE) (messages sb)
  ∧ (∀ key v, object_data sb !! key = Some v → 0 ≤ v < GUINT_RANGE).

End Statusbar.

Module ColorScale.

(** ** C arithmetic

    [int] is 32 bits wide, and an operation on it whose result does not
    fit is undefined in C; so is a division whose divisor is zero. The
    functions below return an [outcome] that tells the two apart from a
    run that completes. *)

Definition G_MAXINT : Z := 2 ^ 31 - 1.
Definition G_MININT : Z := - 2 ^ 31.

Inductive fault : Type := SIGNED_OVERFLOW | DIVISION_BY_ZERO.

Inductive outcome (A : Type) : Type :=
| Done (a : A)
| Fault (f : fault).
Arguments Done {A} a.
Arguments Fault {A} f.

#[global] Instance outcome_bind : MBind outcome := λ A B k o,
  match o with
  | Done a => k a
  | Fault f => Fault f
  end.

Definition gint (z : Z) : outcome Z :=
  if (G_MININT <=? z) && (z <=? G_MAXINT) then Done z
  else Fault SIGNED_OVERFLOW.

(** Conversion of an [int] to [gdouble], exact on the whole [int] range. *)
Definition gdouble_of_int (z : Z) : float :=
  if z <? 0 then PrimFloat.opp (PrimFloat.of_uint63 (Uint63.of_Z (- z)))
  else PrimFloat.of_uint63 (Uint63.of_Z z).

(** [a / n] for a [gdouble] [a] and an [int] [n]. *)
Definition gdouble_div_int (a : float) (n : Z) : outcome float :=
  if n =? 0 then Fault DIVISION_BY_ZERO
  else Done (PrimFloat.div a (gdouble_of_int n)).

(** Conversion of an [int] to [float], which has 24 bits of mantissa:
    round to nearest, ties to even. A [float] that holds an integer is
    kept as that integer. *)
Definition gfloat_of_int (z : Z) : Z :=
  let a := Z.abs z in
  let e := Z.log2 a - 23 in
  if e <=? 0 then z
  else
    let q := a / 2 ^ e in
    let r := a mod 2 ^ e in
    let half := 2 ^ (e - 1) in
    let q' := if (half <? r) || ((r =? half) && Z.odd q) then q + 1 else q in
    Z.sgn z * (q' * 2 ^ e).

(** GLib's [CLAMP (x, low, high)]. *)
Definition CLAMP (x low high : float) : float :=
  if PrimFloat.ltb high x then high
  else if PrimFloat.ltb x low then low
  else x.

(** Conversion of a [gdouble] to [guchar]: the fraction is dropped. The
    values converted here come out of [CLAMP (_, 0, 255)]; for a NaN,
    where C leaves the conversion undefined, 0 is taken. *)
Definition guchar_of_gdouble (v : float) : Z :=
  match Prim2SF v with
  | S754_finite s m e =>
      let t := if 0 <=? e then Z.pos m * 2 ^ e else Z.pos m / 2 ^ (- e) in
      (if s then - t else t) mod 256
  | _ => 0
  end.

(** ** Data model *)

Record GdkRGBA : Type := RGBA {
  red : float;
  green : float;
  blue : float;
  alpha : float
}.

Inductive GtkColorScaleType : Type :=
| GTK_COLOR_SCALE_HUE
| GTK_COLOR_SCALE_ALPHA.

Inductive GtkOrientation : Type :=
| GTK_ORIENTATION_HORIZONTAL
| GTK_ORIENTATION_VERTICAL.

Inductive GtkTextDirection : Type :=
| GTK_TEXT_DIR_NONE
| GTK_TEXT_DIR_LTR
| GTK_TEXT_DIR_RTL.

(** [struct _GtkColorScalePrivate] and what the trough painting reads
    from the widget: its orientation and text direction. [draw_queued]
    records [gtk_widget_queue_draw]. *)
Record GtkColorScale : Type := ColorScale {
  color : GdkRGBA;
  type : GtkColorScaleType;
  orientation : GtkOrientation;
  direction : GtkTextDirection;
  draw_queued : bool
}.

(** Graphene points and rectangles hold [float]s. *)
Record graphene_point_t : Type := Point { point_x : Z; point_y : Z }.

Record graphene_rect_t : Type := Rect {
  origin_x : Z;
  origin_y : Z;
  size_width : Z;
  size_height : Z
}.

Definition graphene_point_init (x y : Z) : graphene_point_t :=
  {| point_x := gfloat_of_int x; point_y := gfloat_of_int y |}.

Definition GRAPHENE_RECT_INIT (x y w h : Z) : graphene_rect_t :=
  {| origin_x := gfloat_of_int x; origin_y := gfloat_of_int y;
     size_width := gfloat_of_int w; size_height := gfloat_of_int h |}.

Inductive GdkMemoryFormat : Type := GDK_MEMORY_R8G8B8.

Record GdkTexture : Type := Texture {
  texture_width : Z;
  texture_height : Z;
  texture_format : GdkMemoryFormat;
  texture_bytes : list Z;
  texture_stride : Z
}.

Record GskColorStop : Type := ColorStop {
  offset : float;
  stop_color : GdkRGBA
}.

(** The cairo calls made on the context of a cairo node. *)
Inductive cairo_call : Type :=
| cairo_translate (tx ty : float)
| cairo_scale (sx sy : float)
| cairo_set_source_rgb (r g b : float)
| cairo_paint
| cairo_mask_checkered (matrix_sx matrix_sy : float).

(** A snapshot is the list of the render nodes appended to it. *)
Inductive render_node : Type :=
| texture_node (texture : GdkTexture) (bounds : graphene_rect_t)
| cairo_node (bounds : graphene_rect_t) (calls : list cairo_call)
| linear_gradient_node (bounds : graphene_rect_t)
    (start_point end_point : graphene_point_t) (stops : list GskColorStop).

Definition GtkSnapshot : Type := list render_node.

(** ** The functions of gtkcolorscale.c *)

(** [gtk_color_scale_set_rgba]. *)
Definition gtk_color_scale_set_rgba (scale : GtkColorScale) (c : GdkRGBA)
  : GtkColorScale :=
  {| color := c;
     type := type scale;
     orientation := orientation scale;
     direction := direction scale;
     draw_queued := true |}.

Section Trough.

(** [gtk_hsv_to_rgb] belongs to gtkcolorutils.c; its results [r], [g] and
    [b] are returned as a triple. *)
Variable gtk_hsv_to_rgb : float → float → float → float * float * float.

(** The body of the inner loop: the three bytes of one pixel. *)
Definition hue_pixel (h : float) : list Z :=
  let '(r, g, b) := gtk_hsv_to_rgb h 1 1 in
  [ guchar_of_gdouble (CLAMP (PrimFloat.mul r 255) 0 255);
    guchar_of_gdouble (CLAMP (PrimFloat.mul g 255) 0 255);
    guchar_of_gdouble (CLAMP (PrimFloat.mul b 255) 0 255) ].

(** The values [hue_x] takes in [for (hue_x = 0; hue_x < stride; hue_x += 3)]. *)
Definition hue_columns (stride : Z) : list Z :=
  (λ i, 3 * i) <$> seqZ 0 ((stride + 2) / 3).

(** One turn of the outer loop: the bytes of row [hue_y]. *)
Definition hue_row (stride : Z) (f : float) (hue_y : Z) : list Z :=
  let h := CLAMP (PrimFloat.mul (gdouble_of_int hue_y) f) 0 1 in
  mjoin ((λ _ : Z, hue_pixel h) <$> hue_columns stride).

(** The outer loop: the bytes of the whole image, row after row. *)
Definition hue_data (stride height : Z) (f : float) : list Z :=
  mjoin (hue_row stride f <$> seqZ 0 height).

(** The hue branch of [gtk_color_scale_snapshot_trough]. *)
Definition snapshot_trough_hue (snapshot : GtkSnapshot)
    (x y width height : Z) : outcome GtkSnapshot :=
  stride ← gint (width * 3);
  area ← gint (width * height);
  size ← gint (area * 3);
  divisor ← gint (height - 1);
  f ← gdouble_div_int 1 divisor;
  let data := hue_data stride height f in
  let texture :=
    {| texture_width := width;
       texture_height := height;
       texture_format := GDK_MEMORY_R8G8B8;
       texture_bytes := data;
       texture_stride := stride |} in
  Done (snapshot ++ [texture_node texture (GRAPHENE_RECT_INIT x y width height)]).

(** The cairo calls that paint the checkered background of the alpha
    trough; [mirrored] is the right-to-left case. *)
Definition alpha_background (x y width : Z) (mirrored : bool)
  : list cairo_call :=
  [cairo_translate (gdouble_of_int x) (gdouble_of_int y)]
  ++ (if mirrored
      then [cairo_translate (gdouble_of_int width) 0; cairo_scale (-1) 1]
      else [])
  ++ [cairo_set_source_rgb 0.33 0.33 0.33;
      cairo_paint;
      cairo_set_source_rgb 0.66 0.66 0.66;
      cairo_mask_checkered 0.125 0.125].

(** The test of the alpha branch: a horizontal scale in a right-to-left
    widget. *)
Definition right_to_left (scale : GtkColorScale) : bool :=
  match orientation scale, direction scale with
  | GTK_ORIENTATION_HORIZONTAL, GTK_TEXT_DIR_RTL => true
  | _, _ => false
  end.

(** The two stops of the alpha gradient. *)
Definition alpha_stops (c : GdkRGBA) : list GskColorStop :=
  [ {| offset := 0; stop_color := RGBA (red c) (green c) (blue c) 0 |};
    {| offset := 1; stop_color := RGBA (red c) (green c) (blue c) 1 |} ].

(** The alpha branch of [gtk_color_scale_snapshot_trough]. *)
Definition snapshot_trough_alpha (scale : GtkColorScale)
    (snapshot : GtkSnapshot) (x y width height : Z) : outcome GtkSnapshot :=
  let bounds := GRAPHENE_RECT_INIT x y width height in
  far ← gint (x + width);
  let '(start_point, end_point) :=
    if right_to_left scale
    then (graphene_point_init far y, graphene_point_init x y)
    else (graphene_point_init x y, graphene_point_init far y) in
  Done (snapshot
        ++ [cairo_node bounds
              (alpha_background x y width (right_to_left scale));
            linear_gradient_node bounds start_point end_point
              (alpha_stops (color scale))]).

(** [gtk_color_scale_snapshot_trough]; returns the snapshot with the
    nodes the call appends. *)
Definition gtk_color_scale_snapshot_trough (scale : GtkColorScale)
    (snapshot : GtkSnapshot) (x y width height : Z) : outcome GtkSnapshot :=
  if (width <=? 1) || (height <=? 1) then Done snapshot
  else
    match type scale with
    | GTK_COLOR_SCALE_HUE => snapshot_trough_hue snapshot x y width height
    | GTK_COLOR_SCALE_ALPHA =>
        snapshot_trough_alpha scale snapshot x y width height
    end.

End Trough.

(** ** Vocabulary of the statements *)

(** The hue of row [hue_y] of a trough [height] pixels high, as the outer
    loop computes it. *)
Definition row_hue (height hue_y : Z) : float :=
  CLAMP (PrimFloat.mul (gdouble_of_int hue_y)
           (PrimFloat.div 1 (gdouble_of_int (height - 1)))) 0 1.

(** The largest magnitude up to which every [int] is a [float]. *)
Definition GFLOAT_EXACT : Z := 2 ^ 24.

(** A [gdouble], read through its IEEE 754 representation, that is a zero
    or a finite number of sign [sx] with an exponent of at most [E]:
    neither an infinity nor a NaN. *)
Definition finite_below (sx : bool) (E : Z) (f : spec_float) : Prop :=
  f = S754_zero sx ∨ ∃ m e, f = S754_finite sx m e ∧ e ≤ E.

End ColorScale.

(** * Properties of the statusbar *)

Module StatusbarTheory.
Import Statusbar.

(** ** The three unlinking loops *)

Lemma unlink_first_context_split ctx l :
  (∃ above msg below,
      l = above ++ msg :: below
      ∧ Forall (λ m, context_id m ≠ ctx) above
      ∧ context_id msg = ctx
      ∧ unlink_first_context ctx l = above ++ below)
  ∨ (Forall (λ m, context_id m ≠ ctx) l ∧ unlink_first_context ctx l = l).
Proof.
  induction l as [|m l IH]; simpl.
  - right. split; [constructor | reflexivity].
  - destruct (Z.eqb_spec (context_id m) ctx) as [Heq | Hne].
    + left. exists [], m, l. repeat split; [constructor | assumption].
    + destruct IH as [(above & msg & below & -> & Hab & Hc & Hun) | [Hall Hun]].
      * left. exists (m :: above), msg, below.
        repeat split; [by constructor | assumption | by rewrite Hun].
      * right. split; [by constructor | by rewrite Hun].
Qed.

Lemma unlink_first_message_split ctx mid l :
  (∃ above msg below,
      l = above ++ msg :: below
      ∧ Forall (λ m, ¬ matches ctx mid m) above
      ∧ matches ctx mid msg
      ∧ unlink_first_message ctx mid l = above ++ below)
  ∨ (Forall (λ m, ¬ matches ctx mid m) l ∧ unlink_first_message ctx mid l = l).
Proof.
  induction l as [|m l IH]; simpl.
  - right. split; [constructor | reflexivity].
  - destruct (Z.eqb_spec (context_id m) ctx) as [Hc | Hc];
      destruct (Z.eqb_spec (message_id m) mid) as [Hm | Hm]; simpl.
    1: { left. exists [], m, l. repeat split; [constructor | done..]. }
    all: destruct IH as [(above & msg & below & -> & Hab & Hmt & Hun) | [Hall Hun]];
      [ left; exists (m :: above), msg, below;
        repeat split; [constructor; [unfold matches; tauto | assumption]
                      | apply Hmt | apply Hmt | by rewrite Hun]
      | right; split; [constructor; [unfold matches; tauto | assumption]
                      | by rewrite Hun] ].
Qed.

Lemma unlink_all_context_filter ctx l :
  unlink_all_context ctx l = filter (λ m, context_id m ≠ ctx) l.
Proof.
  induction l as [|m l IH]; simpl; [reflexivity |].
  destruct (Z.eqb_spec (context_id m) ctx) as [Heq | Hne].
  - rewrite filter_cons_False by tauto. exact IH.
  - rewrite filter_cons_True by assumption. by rewrite IH.
Qed.

Lemma unlink_first_context_head ctx m l :
  context_id m = ctx → unlink_first_context ctx (m :: l) = l.
Proof. intros H. simpl. by rewrite (proj2 (Z.eqb_eq _ _) H). Qed.

(** ** What each function does to the fields *)

Lemma push_messages sb ctx txt :
  messages (gtk_statusbar_push sb ctx (Some txt)).2
  = Msg txt ctx (seq_message_id sb) :: messages sb.
Proof. reflexivity. Qed.

Lemma push_label sb ctx txt :
  label (gtk_statusbar_push sb ctx (Some txt)).2 = txt.
Proof. reflexivity. Qed.

Lemma push_returns sb ctx txt :
  (gtk_statusbar_push sb ctx (Some txt)).1 = seq_message_id sb.
Proof. reflexivity. Qed.

Lemma push_seq_message_id sb ctx txt :
  seq_message_id (gtk_statusbar_push sb ctx (Some txt)).2
  = guint_incr (seq_message_id sb).
Proof. reflexivity. Qed.

Lemma pop_messages sb ctx :
  messages (gtk_statusbar_pop sb ctx) = unlink_first_context ctx (messages sb).
Proof.
  unfold gtk_statusbar_pop. simpl.
  by destruct (unlink_first_context ctx (messages sb)).
Qed.

Lemma pop_label sb ctx :
  label (gtk_statusbar_pop sb ctx)
  = top_text (unlink_first_context ctx (messages sb)).
Proof.
  unfold gtk_statusbar_pop. simpl.
  by destruct (unlink_first_context ctx (messages sb)).
Qed.

Lemma pop_emitted sb ctx :
  emitted (gtk_statusbar_pop sb ctx)
  = popped_signal (unlink_first_context ctx (messages sb)) :: emitted sb.
Proof.
  unfold gtk_statusbar_pop. simpl.
  by destruct (unlink_first_context ctx (messages sb)).
Qed.

Lemma pop_seq_message_id sb ctx :
  seq_message_id (gtk_statusbar_pop sb ctx) = seq_message_id sb.
Proof.
  unfold gtk_statusbar_pop. simpl.
  by destruct (unlink_first_context ctx (messages sb)).
Qed.

Lemma pop_context_fields sb ctx :
  seq_context_id (gtk_statusbar_pop sb ctx) = seq_context_id sb
  ∧ object_data (gtk_statusbar_pop sb ctx) = object_data sb.
Proof.
  unfold gtk_statusbar_pop. simpl.
  by destruct (unlink_first_context ctx (messages sb)).
Qed.

Lemma pop_shows_top sb ctx : shows_top (gtk_statusbar_pop sb ctx).
Proof. unfold shows_top. by rewrite pop_label, pop_messages. Qed.

Lemma remove_all_messages sb ctx :
  messages (gtk_statusbar_remove_all sb ctx)
  = filter (λ m, context_id m ≠ ctx) (messages sb).
Proof.
  unfold gtk_statusbar_remove_all.
  destruct (messages sb) as [|top below] eqn:Hms; [by rewrite Hms |].
  destruct (Z.eqb_spec (context_id top) ctx) as [Heq | Hne].
  - rewrite pop_messages. simpl messages.
    rewrite unlink_first_context_head by assumption.
    rewrite filter_cons_False by tauto. apply unlink_all_context_filter.
  - simpl. rewrite filter_cons_True by assumption.
    by rewrite unlink_all_context_filter.
Qed.

(** ** The label follows the top of the stack *)

Lemma perform_shows_top sb c : shows_top sb → shows_top (perform sb c).2.
Proof.
  intros Hsb. destruct c as [d | ctx txt | ctx | ctx mid | ctx]; simpl.
  - destruct d as [d|]; simpl; [| assumption].
    unfold gtk_statusbar_get_context_id.
    destruct (_ =? 0); assumption.
  - destruct txt as [t|]; [reflexivity | assumption].
  - apply pop_shows_top.
  - unfold gtk_statusbar_remove.
    destruct (negb (0 <? mid)); [assumption |].
    destruct (messages sb) as [|msg rest] eqn:Hms; [assumption |].
    destruct ((context_id msg =? ctx) && (message_id msg =? mid)) eqn:Htop.
    + apply pop_shows_top.
    + unfold shows_top in *. simpl. rewrite Htop. by rewrite Hsb, Hms.
  - unfold gtk_statusbar_remove_all.
    destruct (messages sb) as [|top below] eqn:Hms; [assumption |].
    destruct (context_id top =? ctx).
    + apply pop_shows_top.
    + unfold shows_top in *. simpl. by rewrite Hsb, Hms.
Qed.

Lemma after_shows_top cs : ∀ sb, shows_top sb → shows_top (after sb cs).
Proof.
  induction cs as [|c cs IH]; intros sb Hsb; simpl; [assumption |].
  apply IH, perform_shows_top, Hsb.
Qed.

(** C1: for every state and every non-NULL text, [gtk_statusbar_push]
    puts a new message with the given context id and text on top of the
    stack and leaves the messages stored before unchanged below it; the
    label then shows the text of the topmost message, and it keeps doing
    so over every further sequence of calls, as it does from creation on
    (the empty string for an empty stack). *)
Theorem push_prepends_and_label_shows_top :
  ∀ (sb : GtkStatusbar) (ctx : Z) (txt : string),
    let sb' := (gtk_statusbar_push sb ctx (Some txt)).2 in
    messages sb' = Msg txt ctx (seq_message_id sb) :: messages sb
    ∧ label sb' = txt
    ∧ (∀ cs, label (after sb' cs) = top_text (messages (after sb' cs)))
    ∧ (∀ cs, label (after gtk_statusbar_new cs)
             = top_text (messages (after gtk_statusbar_new cs))).
Proof.
  intros sb ctx txt sb'. split; [apply push_messages |].
  split; [apply push_label |]. split; intros cs.
  - apply (after_shows_top cs sb'). reflexivity.
  - apply (after_shows_top cs gtk_statusbar_new). reflexivity.
Qed.

(** C2: [gtk_statusbar_pop] removes the first message from the top whose
    context id is the given one and keeps all others in their order, or
    leaves the stack as it is when no message has that context id; either
    way it then emits text-popped with the context id and text of the new
    topmost message, or with 0 and NULL when the stack is empty. *)
Theorem pop_removes_first_of_context :
  ∀ (sb : GtkStatusbar) (ctx : Z),
    let sb' := gtk_statusbar_pop sb ctx in
    ((∃ above msg below,
         messages sb = above ++ msg :: below
         ∧ Forall (λ m, context_id m ≠ ctx) above
         ∧ context_id msg = ctx
         ∧ messages sb' = above ++ below)
     ∨ (Forall (λ m, context_id m ≠ ctx) (messages sb)
        ∧ messages sb' = messages sb))
    ∧ emitted sb'
      = match messages sb' with
        | top :: _ => TEXT_POPPED (context_id top) (Some (text top))
        | [] => TEXT_POPPED 0 None
        end :: emitted sb.
Proof.
  intros sb ctx sb'. subst sb'. rewrite pop_messages, pop_emitted.
  split; [| reflexivity].
  apply unlink_first_context_split.
Qed.

Lemma filter_unmatched_middle ctx mid above msg below :
  matches ctx mid msg →
  filter (λ m, ¬ matches ctx mid m) (above ++ msg :: below)
  = filter (λ m, ¬ matches ctx mid m) (above ++ below).
Proof.
  intros Hm. rewrite !filter_app. f_equal.
  rewrite filter_cons_False; [reflexivity | tauto].
Qed.

(** C3: for a message id above 0, [gtk_statusbar_remove] takes at most
    one message off the stack, and that one has exactly the given context
    id and message id; every message that differs in either stays, the
    ones above the removed message and the ones below it in their order. *)
Theorem remove_unlinks_only_the_match :
  ∀ (sb : GtkStatusbar) (ctx mid : Z),
    0 < mid →
    let sb' := gtk_statusbar_remove sb ctx mid in
    ((∃ above msg below,
         messages sb = above ++ msg :: below
         ∧ Forall (λ m, ¬ matches ctx mid m) above
         ∧ matches ctx mid msg
         ∧ messages sb' = above ++ below)
     ∨ (Forall (λ m, ¬ matches ctx mid m) (messages sb)
        ∧ messages sb' = messages sb))
    ∧ filter (λ m, ¬ matches ctx mid m) (messages sb')
      = filter (λ m, ¬ matches ctx mid m) (messages sb).
Proof.
  intros sb ctx mid Hmid sb'.
  assert (Hcases :
    (∃ above msg below,
         messages sb = above ++ msg :: below
         ∧ Forall (λ m, ¬ matches ctx mid m) above
         ∧ matches ctx mid msg
         ∧ messages sb' = above ++ below)
     ∨ (Forall (λ m, ¬ matches ctx mid m) (messages sb)
        ∧ messages sb' = messages sb)).
  { subst sb'. unfold gtk_statusbar_remove.
    rewrite (proj2 (Z.ltb_lt _ _) Hmid). simpl negb. cbv iota.
    destruct (messages sb) as [|top rest] eqn:Hms.
    - right. rewrite Hms. split; [constructor | reflexivity].
    - destruct (Z.eqb_spec (context_id top) ctx) as [Hc | Hc];
        destruct (Z.eqb_spec (message_id top) mid) as [Hm | Hm]; simpl andb; cbv iota.
      1: { left. exists [], top, rest. rewrite pop_messages, Hms.
           rewrite unlink_first_context_head by assumption.
           repeat split; [constructor | done..]. }
      all: cbn [messages set_messages]; apply unlink_first_message_split. }
  split; [exact Hcases |].
  destruct Hcases as [(above & msg & below & -> & _ & Hmt & ->) | [_ ->]];
    [| reflexivity].
  symmetry. by apply filter_unmatched_middle.
Qed.

Lemma remove_unlinks_only_the_match_witness :
  let sb := Statusbar "c"
              [Msg "c" 2 3; Msg "b" 1 2; Msg "a" 2 1] [] 3 4 ∅ [] in
  0 < 2
  ∧ messages (gtk_statusbar_remove sb 1 2) = [Msg "c" 2 3; Msg "a" 2 1]
  ∧ filter (λ m, ¬ matches 1 2 m) (messages (gtk_statusbar_remove sb 1 2))
    = filter (λ m, ¬ matches 1 2 m) (messages sb).
Proof.
  intros sb.
  assert (Hmid : 0 < 2) by lia.
  split; [exact Hmid |]. split; [reflexivity |].
  exact (proj2 (remove_unlinks_only_the_match sb 1 2 Hmid)).
Defined.

(** C4: [gtk_statusbar_remove_all] removes exactly the messages whose
    context id is the given one and keeps the others in their order;
    text-popped is emitted, once and for the new top of the stack (0 and
    NULL when nothing is left), when the topmost message before the call
    had that context id, and not at all otherwise. *)
Theorem remove_all_filters_context :
  ∀ (sb : GtkStatusbar) (ctx : Z),
    let sb' := gtk_statusbar_remove_all sb ctx in
    messages sb' = filter (λ m, context_id m ≠ ctx) (messages sb)
    ∧ ((∃ top below, messages sb = top :: below ∧ context_id top = ctx)
       ↔ emitted sb'
         = match messages sb' with
           | top :: _ => TEXT_POPPED (context_id top) (Some (text top))
           | [] => TEXT_POPPED 0 None
           end :: emitted sb)
    ∧ (¬ (∃ top below, messages sb = top :: below ∧ context_id top = ctx)
       ↔ emitted sb' = emitted sb).
Proof.
  intros sb ctx sb'.
  split; [apply remove_all_messages |].
  assert (Hne : ∀ (e : emission) l, e :: l ≠ l).
  { intros e l H. apply (f_equal length) in H. simpl in H. lia. }
  subst sb'. unfold gtk_statusbar_remove_all.
  destruct (messages sb) as [|top below] eqn:Hms.
  - rewrite Hms. split; split.
    + intros (t & b & Habs & _). discriminate.
    + intros H. symmetry in H. by apply Hne in H.
    + reflexivity.
    + intros _ (t & b & Habs & _). discriminate.
  - destruct (Z.eqb_spec (context_id top) ctx) as [Heq | Hneq].
    + rewrite pop_emitted, pop_messages. simpl messages. simpl emitted.
      split; split.
      * intros _. reflexivity.
      * intros _. eauto.
      * intros H. exfalso. apply H. eauto.
      * intros H. by apply Hne in H.
    + simpl. split; split.
      * intros (t & b & [= -> ->] & Hc). contradiction.
      * intros H. symmetry in H. by apply Hne in H.
      * reflexivity.
      * intros _ (t & b & [= -> ->] & Hc). contradiction.
Qed.

Lemma pop_push_messages sb ctx txt :
  messages (gtk_statusbar_pop (gtk_statusbar_push sb ctx (Some txt)).2 ctx)
  = messages sb.
Proof.
  rewrite pop_messages, push_messages.
  by apply unlink_first_context_head.
Qed.

(** C5: a push immediately followed by a pop of the same context id
    leaves the stack of messages as it was before the push. *)
Theorem pop_after_push_restores_messages :
  ∀ (sb : GtkStatusbar) (ctx : Z) (txt : string),
    messages (gtk_statusbar_pop (gtk_statusbar_push sb ctx (Some txt)).2 ctx)
    = messages sb.
Proof. intros sb ctx txt. apply pop_push_messages. Qed.

(** A short session: two producers, one message each, and the first
    producer takes its message back. *)
Example session_two_producers :
  let sb := after gtk_statusbar_new
              [GET_CONTEXT_ID (Some "net"); GET_CONTEXT_ID (Some "disk");
               PUSH 1 (Some "connecting"); PUSH 2 (Some "saving"); POP 1] in
  label sb = "saving"
  ∧ messages sb = [Msg "saving" 2 2]
  ∧ emitted sb = [TEXT_POPPED 2 (Some "saving");
                  TEXT_PUSHED 2 (Some "saving");
                  TEXT_PUSHED 1 (Some "connecting")]
  ∧ object_data sb = {[ context_key "net" := 1; context_key "disk" := 2 ]}.
Proof. repeat split. Qed.

(** Removing all messages of the context on top pops the stack once, for
    the message that comes to the top; removing those of another context
    emits nothing. *)
Example remove_all_of_top_context :
  let sb := Statusbar "d" [Msg "d" 1 4; Msg "c" 2 3; Msg "b" 1 2; Msg "a" 2 1]
              [] 3 5 ∅ [] in
  messages (gtk_statusbar_remove_all sb 1) = [Msg "c" 2 3; Msg "a" 2 1]
  ∧ label (gtk_statusbar_remove_all sb 1) = "c"
  ∧ emitted (gtk_statusbar_remove_all sb 1) = [TEXT_POPPED 2 (Some "c")]
  ∧ messages (gtk_statusbar_remove_all sb 2) = [Msg "d" 1 4; Msg "b" 1 2]
  ∧ emitted (gtk_statusbar_remove_all sb 2) = [].
Proof. repeat split. Qed.

(** [gtk_statusbar_remove] wants both ids to match, and refuses id 0. *)
Example remove_by_both_ids :
  let sb := Statusbar "c" [Msg "c" 2 3; Msg "b" 1 2; Msg "a" 2 1]
              [] 3 4 ∅ [] in
  messages (gtk_statusbar_remove sb 2 1) = [Msg "c" 2 3; Msg "b" 1 2]
  ∧ messages (gtk_statusbar_remove sb 1 1) = messages sb
  ∧ messages (gtk_statusbar_remove sb 2 0) = messages sb
  ∧ label (gtk_statusbar_remove sb 2 3) = "b".
Proof. repeat split. Qed.

(** ** Message ids *)

Lemma after_app cs1 : ∀ sb cs2,
  after sb (cs1 ++ cs2) = after (after sb cs1) cs2.
Proof. induction cs1 as [|c cs1 IH]; intros sb cs2; simpl; [reflexivity | apply IH]. Qed.

Lemma count_calls_nonneg p cs : 0 ≤ count_calls p cs.
Proof. induction cs as [|c cs IH]; simpl; [lia | destruct (p c); lia]. Qed.

Lemma count_calls_app p cs1 cs2 :
  count_calls p (cs1 ++ cs2) = count_calls p cs1 + count_calls p cs2.
Proof. induction cs1 as [|c cs1 IH]; simpl; [reflexivity | rewrite IH; lia]. Qed.

Lemma Forall_of_sublist {A} (P : A → Prop) (l1 l2 : list A) :
  l1 `sublist_of` l2 → Forall P l2 → Forall P l1.
Proof.
  induction 1 as [|x l1 l2 _ IH|x l1 l2 _ IH]; intros Hall.
  - constructor.
  - apply Forall_cons in Hall as [Hx Hall]. constructor; auto.
  - apply Forall_cons in Hall as [_ Hall]. auto.
Qed.

Lemma StronglySorted_of_sublist {A} (R : relation A) (l1 l2 : list A) :
  l1 `sublist_of` l2 → StronglySorted R l2 → StronglySorted R l1.
Proof.
  induction 1 as [|x l1 l2 Hsub IH|x l1 l2 _ IH]; intros Hs.
  - constructor.
  - apply StronglySorted_cons in Hs as [Hx Hs].
    apply StronglySorted_cons. split; [| auto].
    by apply (Forall_of_sublist _ l1 l2).
  - apply StronglySorted_cons in Hs as [_ Hs]. auto.
Qed.

Lemma unlink_first_context_sublist ctx l :
  unlink_first_context ctx l `sublist_of` l.
Proof.
  induction l as [|m l IH]; simpl; [constructor |].
  destruct (context_id m =? ctx); [by apply sublist_cons | by apply sublist_skip].
Qed.

Lemma unlink_first_message_sublist ctx mid l :
  unlink_first_message ctx mid l `sublist_of` l.
Proof.
  induction l as [|m l IH]; simpl; [constructor |].
  destruct ((context_id m =? ctx) && (message_id m =? mid));
    [by apply sublist_cons | by apply sublist_skip].
Qed.

Lemma unlink_all_context_sublist ctx l :
  unlink_all_context ctx l `sublist_of` l.
Proof.
  induction l as [|m l IH]; simpl; [constructor |].
  destruct (context_id m =? ctx); [by apply sublist_cons | by apply sublist_skip].
Qed.

Lemma perform_messages_sublist sb c :
  is_push c = false → messages (perform sb c).2 `sublist_of` messages sb.
Proof.
  intros Hc. destruct c as [d | ctx txt | ctx | ctx mid | ctx]; simpl.
  - destruct d as [d|]; simpl; [| reflexivity].
    unfold gtk_statusbar_get_context_id. destruct (_ =? 0); reflexivity.
  - destruct txt; [discriminate | reflexivity].
  - rewrite pop_messages. apply unlink_first_context_sublist.
  - unfold gtk_statusbar_remove. destruct (negb (0 <? mid)); [reflexivity |].
    destruct (messages sb) as [|top rest] eqn:Hms; [by rewrite Hms |].
    destruct ((context_id top =? ctx) && (message_id top =? mid)).
    + rewrite pop_messages, Hms. apply unlink_first_context_sublist.
    + cbn [messages set_messages]. apply unlink_first_message_sublist.
  - rewrite remove_all_messages. apply sublist_filter.
Qed.

Lemma perform_seq_message_id sb c :
  seq_message_id (perform sb c).2
  = if is_push c then guint_incr (seq_message_id sb) else seq_message_id sb.
Proof.
  destruct c as [d | ctx txt | ctx | ctx mid | ctx]; simpl.
  - destruct d as [d|]; simpl; [| reflexivity].
    unfold gtk_statusbar_get_context_id. destruct (_ =? 0); reflexivity.
  - destruct txt; reflexivity.
  - apply pop_seq_message_id.
  - unfold gtk_statusbar_remove. destruct (negb (0 <? mid)); [reflexivity |].
    destruct (messages sb) as [|top rest]; [reflexivity |].
    destruct ((context_id top =? ctx) && (message_id top =? mid));
      [apply pop_seq_message_id | reflexivity].
  - unfold gtk_statusbar_remove_all.
    destruct (messages sb) as [|top below]; [reflexivity |].
    destruct (context_id top =? ctx); [by rewrite pop_seq_message_id | reflexivity].
Qed.

Lemma guint_wrap_small z : 0 ≤ z < GUINT_RANGE → guint_wrap z = z.
Proof. intros H. unfold guint_wrap. by apply Z.mod_small. Qed.

Lemma guint_incr_wrap z : guint_incr (guint_wrap z) = guint_wrap (z + 1).
Proof.
  unfold guint_incr, guint_wrap, GUINT_RANGE.
  rewrite Z.add_mod_idemp_l by lia. reflexivity.
Qed.

Lemma perform_message_ids_upto n sb c :
  0 ≤ n →
  n + count_calls is_push [c] < GUINT_RANGE →
  message_ids_upto n sb →
  message_ids_upto (n + count_calls is_push [c]) (perform sb c).2.
Proof.
  intros Hn Hbound (Hseq & Hrange & Hsorted). simpl in *.
  destruct (is_push c) eqn:Hc.
  - destruct c as [| ctx [t|] | | |]; try discriminate. simpl.
    assert (Hid : seq_message_id sb = 1 + n).
    { rewrite Hseq. apply guint_wrap_small. lia. }
    split; [| split].
    + cbn. rewrite Hseq, guint_incr_wrap. f_equal. lia.
    + constructor; [simpl; lia |].
      eapply Forall_impl; [exact Hrange |]. simpl. intros m Hm. lia.
    + apply StronglySorted_cons. split; [| assumption].
      eapply Forall_impl; [exact Hrange |]. simpl. intros m Hm. lia.
  - replace (n + (0 + 0)) with n by lia.
    split; [| split].
    + rewrite perform_seq_message_id, Hc. assumption.
    + eapply Forall_of_sublist; [by apply perform_messages_sublist | assumption].
    + eapply StronglySorted_of_sublist; [by apply perform_messages_sublist | assumption].
Qed.

Lemma after_message_ids_upto cs : ∀ n sb,
  0 ≤ n →
  n + count_calls is_push cs < GUINT_RANGE →
  message_ids_upto n sb →
  message_ids_upto (n + count_calls is_push cs) (after sb cs).
Proof.
  induction cs as [|c cs IH]; intros n sb Hn Hbound Hinv; simpl.
  - by replace (n + 0) with n by lia.
  - pose proof (count_calls_nonneg is_push cs) as Hcs.
    simpl in Hbound.
    replace (n + ((if is_push c then 1 else 0) + count_calls is_push cs))
      with ((n + count_calls is_push [c]) + count_calls is_push cs)
      by (simpl; lia).
    apply IH.
    + simpl. destruct (is_push c); lia.
    + simpl. destruct (is_push c); lia.
    + apply perform_message_ids_upto; [assumption | simpl; destruct (is_push c); lia | assumption].
Qed.

Lemma new_message_ids_upto : message_ids_upto 0 gtk_statusbar_new.
Proof. repeat split; constructor. Qed.

Lemma pushed_ids_none cs : ∀ sb,
  count_calls is_push cs = 0 → pushed_ids sb cs = [].
Proof.
  induction cs as [|c cs IH]; intros sb Hcount; simpl in *; [reflexivity |].
  pose proof (count_calls_nonneg is_push cs).
  destruct (is_push c); [lia |]. apply IH. lia.
Qed.

Lemma pushed_ids_count cs : ∀ sb,
  0 ≤ seq_message_id sb →
  seq_message_id sb + count_calls is_push cs ≤ GUINT_RANGE →
  pushed_ids sb cs = seqZ (seq_message_id sb) (count_calls is_push cs).
Proof.
  induction cs as [|c cs IH]; intros sb Hlo Hbound; simpl in *; [reflexivity |].
  pose proof (count_calls_nonneg is_push cs) as Hcs.
  pose proof (perform_seq_message_id sb c) as Hseq.
  destruct (is_push c) eqn:Hc.
  - rewrite seqZ_cons by lia.
    replace (Z.pred (1 + count_calls is_push cs)) with (count_calls is_push cs) by lia.
    f_equal.
    + destruct c as [| ctx [t|] | | |]; try discriminate. reflexivity.
    + destruct (decide (count_calls is_push cs = 0)) as [Hz | Hnz].
      * rewrite Hz. rewrite seqZ_nil by lia. by apply pushed_ids_none.
      * assert (Hnext : seq_message_id (perform sb c).2 = Z.succ (seq_message_id sb)).
        { rewrite Hseq. unfold guint_incr. rewrite guint_wrap_small; lia. }
        rewrite <- Hnext. apply IH; rewrite Hnext; lia.
  - rewrite Z.add_0_l. rewrite <- Hseq. apply IH; rewrite Hseq; lia.
Qed.

Lemma descending_ids_NoDup (l : list GtkStatusbarMsg) :
  StronglySorted (λ a b, message_id b < message_id a) l →
  NoDup (message_id <$> l).
Proof.
  induction l as [|m l IH]; intros Hs; simpl; [constructor |].
  apply StronglySorted_cons in Hs as [Hm Hs].
  constructor; [| auto].
  intros Hin. apply list_elem_of_fmap in Hin as (m' & Heq & Hin).
  rewrite Forall_forall in Hm. specialize (Hm m' Hin). lia.
Qed.

Lemma filter_matches_none ctx mid (l : list GtkStatusbarMsg) :
  mid ∉ message_id <$> l → filter (matches ctx mid) l = [].
Proof.
  induction l as [|m l IH]; intros Hnot; [reflexivity |].
  rewrite fmap_cons, not_elem_of_cons in Hnot. destruct Hnot as [Hne Hnot].
  rewrite filter_cons_False; [auto |].
  intros [_ Hmid]. congruence.
Qed.

Lemma NoDup_ids_one_match ctx mid (l : list GtkStatusbarMsg) :
  NoDup (message_id <$> l) →
  (length (filter (matches ctx mid) l) ≤ 1)%nat.
Proof.
  induction l as [|m l IH]; intros Hnd; simpl; [lia |].
  apply NoDup_cons in Hnd as [Hm Hnd].
  destruct (decide (matches ctx mid m)) as [Hmt | Hmt].
  - rewrite filter_cons_True by assumption. simpl.
    destruct Hmt as [_ <-].
    rewrite filter_matches_none by assumption. simpl. lia.
  - rewrite filter_cons_False by assumption. auto.
Qed.

(** C9, amended: the counter of message ids starts at 1 and, over any
    sequence of calls with fewer than 2^32 pushes, the pushes are handed
    the ids 1, 2, 3, ... in turn; in the state reached, the ids on the
    stack are nonzero and pairwise distinct, so at most one message
    matches a given pair of context id and message id. *)
Theorem message_ids_increase_until_wrap :
  ∀ cs : list call,
    count_calls is_push cs < GUINT_RANGE →
    let sb := after gtk_statusbar_new cs in
    seq_message_id gtk_statusbar_new = 1
    ∧ pushed_ids gtk_statusbar_new cs = seqZ 1 (count_calls is_push cs)
    ∧ Forall (λ m, 0 < message_id m) (messages sb)
    ∧ NoDup (message_id <$> messages sb)
    ∧ (∀ ctx mid, (length (filter (matches ctx mid) (messages sb)) ≤ 1)%nat).
Proof.
  intros cs Hbound sb.
  pose proof (count_calls_nonneg is_push cs) as Hcs.
  destruct (after_message_ids_upto cs 0 gtk_statusbar_new)
    as (_ & Hrange & Hsorted);
    [lia | lia | apply new_message_ids_upto |].
  fold sb in Hrange, Hsorted.
  split; [reflexivity |]. split.
  { apply (pushed_ids_count cs gtk_statusbar_new); simpl; unfold GUINT_RANGE in *; lia. }
  split.
  { eapply Forall_impl; [exact Hrange |]. simpl. intros m Hm. lia. }
  pose proof (descending_ids_NoDup _ Hsorted) as Hnd.
  split; [exact Hnd |].
  intros ctx mid. by apply NoDup_ids_one_match.
Qed.

Lemma message_ids_increase_until_wrap_witness :
  let cs := [PUSH 1 (Some "a"); PUSH 2 (Some "b"); POP 1; PUSH 1 (Some "c")] in
  count_calls is_push cs < GUINT_RANGE
  ∧ pushed_ids gtk_statusbar_new cs = seqZ 1 (count_calls is_push cs)
  ∧ NoDup (message_id <$> messages (after gtk_statusbar_new cs)).
Proof.
  intros cs.
  assert (Hbound : count_calls is_push cs < GUINT_RANGE) by reflexivity.
  split; [exact Hbound |].
  destruct (message_ids_increase_until_wrap cs Hbound) as (_ & Hids & _ & Hnd & _).
  split; [exact Hids | exact Hnd].
Defined.

Lemma push_pop_rounds_after n : ∀ sb,
  0 ≤ seq_message_id sb < GUINT_RANGE →
  messages (after sb (push_pop_rounds n)) = messages sb
  ∧ seq_message_id (after sb (push_pop_rounds n))
    = guint_wrap (seq_message_id sb + Z.of_nat n).
Proof.
  induction n as [|n IH]; intros sb Hseq.
  - simpl. split; [reflexivity |]. rewrite guint_wrap_small; lia.
  - change (after sb (push_pop_rounds (S n)))
      with (after (gtk_statusbar_pop (gtk_statusbar_push sb 1 (Some "a")).2 1)
                  (push_pop_rounds n)).
    destruct (IH (gtk_statusbar_pop (gtk_statusbar_push sb 1 (Some "a")).2 1))
      as [Hm Hs].
    { rewrite pop_seq_message_id, push_seq_message_id.
      unfold guint_incr, guint_wrap, GUINT_RANGE. apply Z.mod_pos_bound. lia. }
    rewrite Hm, Hs, pop_push_messages, pop_seq_message_id, push_seq_message_id.
    split; [reflexivity |].
    unfold guint_incr, guint_wrap, GUINT_RANGE.
    rewrite Z.add_mod_idemp_l by lia. f_equal. lia.
Qed.

(** C9, as stated, fails once the counter has run through its 32 bits:
    after 2^32 - 1 rounds of push and pop the next push stores a message
    whose id is 0. *)
Lemma message_id_zero_after_wrap :
  messages (after gtk_statusbar_new message_id_wrap_calls) = [Msg "a" 1 0]
  ∧ ¬ Forall (λ m, message_id m ≠ 0)
        (messages (after gtk_statusbar_new message_id_wrap_calls)).
Proof.
  assert (Hms : messages (after gtk_statusbar_new message_id_wrap_calls)
                = [Msg "a" 1 0]).
  { unfold message_id_wrap_calls. rewrite after_app.
    destruct (push_pop_rounds_after (Z.to_nat (GUINT_RANGE - 1)) gtk_statusbar_new)
      as [Hm Hs]; [cbn; unfold GUINT_RANGE; lia |].
    rewrite Z2Nat.id in Hs by (unfold GUINT_RANGE; lia).
    revert Hm Hs.
    generalize (after gtk_statusbar_new
                  (push_pop_rounds (Z.to_nat (GUINT_RANGE - 1)))).
    intros sb Hm Hs.
    change (after sb [PUSH 1 (Some "a")])
      with (gtk_statusbar_push sb 1 (Some "a")).2.
    rewrite push_messages, Hm, Hs. reflexivity. }
  split; [exact Hms |].
  rewrite Hms. intros Hall. apply Forall_cons in Hall as [Hne _].
  by apply Hne.
Qed.

(** ** Context ids *)

Lemma perform_keeps_context sb c :
  is_get_context_id c = false →
  seq_context_id (perform sb c).2 = seq_context_id sb
  ∧ object_data (perform sb c).2 = object_data sb.
Proof.
  intros Hc. destruct c as [d | ctx txt | ctx | ctx mid | ctx]; simpl.
  - destruct d; [discriminate | by split].
  - destruct txt; by split.
  - apply pop_context_fields.
  - unfold gtk_statusbar_remove. destruct (negb (0 <? mid)); [by split |].
    destruct (messages sb) as [|top rest]; [by split |].
    destruct ((context_id top =? ctx) && (message_id top =? mid));
      [apply pop_context_fields | by split].
  - unfold gtk_statusbar_remove_all.
    destruct (messages sb) as [|top below]; [by split |].
    destruct (context_id top =? ctx); [| by split].
    destruct (pop_context_fields
                (set_messages sb (top :: unlink_all_context ctx below)) ctx)
      as [Hseq Hdata].
    by rewrite Hseq, Hdata.
Qed.

Lemma get_context_id_known sb d v :
  object_data sb !! context_key d = Some v → v ≠ 0 →
  gtk_statusbar_get_context_id sb (Some d) = (v, sb).
Proof.
  intros Hlook Hv. unfold gtk_statusbar_get_context_id, g_object_get_data.
  rewrite Hlook. simpl. by rewrite (proj2 (Z.eqb_neq _ _) Hv).
Qed.

Lemma get_context_id_fresh sb d :
  object_data sb !! context_key d = None →
  let r := gtk_statusbar_get_context_id sb (Some d) in
  r.1 = seq_context_id sb
  ∧ seq_context_id r.2 = guint_incr (seq_context_id sb)
  ∧ object_data r.2
    = g_object_set_data_full (object_data sb) (context_key d) (seq_context_id sb).
Proof.
  intros Hlook. unfold gtk_statusbar_get_context_id, g_object_get_data.
  rewrite Hlook. simpl. by repeat split.
Qed.

#[local] Instance context_key_inj : Inj (=) (=) context_key.
Proof. intros d1 d2 H. unfold context_key in H. by apply String.app_inj in H. Qed.

(** A key is registered only for a description that was asked for. *)
Lemma after_keys_asked cs : ∀ sb key v,
  object_data (after sb cs) !! key = Some v →
  object_data sb !! key = Some v
  ∨ ∃ d, key = context_key d ∧ GET_CONTEXT_ID (Some d) ∈ cs.
Proof.
  induction cs as [|c cs IH]; intros sb key v Hkv; simpl in *; [by left |].
  apply IH in Hkv as [Hkv | (d & -> & Hin)].
  - destruct (is_get_context_id c) eqn:Hc.
    + destruct c as [[d|] | | | |]; try discriminate. simpl in Hkv.
      unfold gtk_statusbar_get_context_id in Hkv.
      destruct (g_object_get_data _ _ =? 0); [| by left].
      simpl in Hkv. unfold g_object_set_data_full in Hkv.
      destruct (decide (context_key d = key)) as [<- | Hne].
      * right. exists d. split; [reflexivity | by left].
      * left. destruct (seq_context_id sb =? 0).
        -- by rewrite lookup_delete_ne in Hkv.
        -- by rewrite lookup_insert_ne in Hkv.
    + left. by rewrite (proj2 (perform_keeps_context sb c Hc)) in Hkv.
  - right. exists d. split; [reflexivity | by right].
Qed.

Lemma new_description_unregistered cs d :
  GET_CONTEXT_ID (Some d) ∉ cs →
  object_data (after gtk_statusbar_new cs) !! context_key d = None.
Proof.
  intros Hnot.
  destruct (object_data (after gtk_statusbar_new cs) !! context_key d)
    as [v|] eqn:Hlook; [| reflexivity].
  apply after_keys_asked in Hlook as [Hlook | (d' & Hkey & Hin)].
  - simpl in Hlook. rewrite lookup_empty in Hlook. discriminate.
  - apply (inj context_key) in Hkey. subst d'. contradiction.
Qed.

Lemma get_context_id_fresh_keys sb d :
  object_data sb !! context_key d = None →
  keys (gtk_statusbar_get_context_id sb (Some d)).2 = context_key d :: keys sb.
Proof.
  intros Hlook. unfold gtk_statusbar_get_context_id, g_object_get_data.
  by rewrite Hlook.
Qed.

Lemma pop_keys sb ctx : keys (gtk_statusbar_pop sb ctx) = keys sb.
Proof.
  unfold gtk_statusbar_pop. simpl.
  by destruct (unlink_first_context ctx (messages sb)).
Qed.

Lemma perform_keeps_keys sb c :
  is_get_context_id c = false → keys (perform sb c).2 = keys sb.
Proof.
  intros Hc. destruct c as [d | ctx txt | ctx | ctx mid | ctx]; simpl.
  - destruct d; [discriminate | reflexivity].
  - destruct txt; reflexivity.
  - apply pop_keys.
  - unfold gtk_statusbar_remove. destruct (negb (0 <? mid)); [reflexivity |].
    destruct (messages sb) as [|top rest]; [reflexivity |].
    destruct ((context_id top =? ctx) && (message_id top =? mid));
      [apply pop_keys | reflexivity].
  - unfold gtk_statusbar_remove_all.
    destruct (messages sb) as [|top below]; [reflexivity |].
    destruct (context_id top =? ctx); [by rewrite pop_keys | reflexivity].
Qed.

Lemma keys_numbered_NoDup sb : keys_numbered sb → NoDup (keys sb).
Proof.
  intros [Hnum _]. apply NoDup_alt. intros i j key Hi Hj.
  pose proof (Hnum i key Hi) as H1. pose proof (Hnum j key Hj) as H2.
  rewrite H1 in H2. injection H2 as H2. lia.
Qed.

Lemma descriptions_app cs1 cs2 :
  descriptions (cs1 ++ cs2) = descriptions cs1 ∪ descriptions cs2.
Proof.
  induction cs1 as [|c cs1 IH]; simpl; [by rewrite (left_id_L ∅ (∪)) |].
  destruct c as [[d|] | | | |]; rewrite ?IH; try reflexivity.
  by rewrite (assoc_L (∪)).
Qed.

Lemma descriptions_other c cs :
  is_get_context_id c = false → descriptions (c :: cs) = descriptions cs.
Proof. by destruct c as [[d|] | | | |]. Qed.

Lemma registers_new : registers ∅ gtk_statusbar_new.
Proof.
  split; [reflexivity |]. split; [reflexivity |]. split; [split |].
  - intros i key Hi. discriminate.
  - intros key v Hkv. simpl in Hkv. rewrite lookup_empty in Hkv. discriminate.
  - intros key. simpl. split; [intros Hin; by apply elem_of_nil in Hin |].
    intros (d & Hd & _). set_solver.
Qed.

(** A registered id is the position of its key, counted from the end of
    the list of keys; so it is not 0 and belongs to one key only. *)
Lemma registers_lookup ds sb key v :
  registers ds sb → object_data sb !! key = Some v →
  ∃ i : nat, keys sb !! i = Some key
             ∧ v = Z.of_nat (length (keys sb)) - Z.of_nat i
             ∧ 1 ≤ v.
Proof.
  intros (_ & _ & [Hnum Hreg] & _) Hkv.
  pose proof (Hreg _ _ Hkv) as Hin.
  apply list_elem_of_lookup in Hin as [i Hi].
  pose proof (Hnum i _ Hi) as Hval. rewrite Hkv in Hval. injection Hval as ->.
  exists i. split; [assumption |]. split; [reflexivity |].
  apply lookup_lt_Some in Hi. lia.
Qed.

Lemma registers_perform ds sb c :
  is_get_context_id c = false → registers ds sb → registers ds (perform sb c).2.
Proof.
  intros Hc (Hseq & Hlen & [Hnum Hreg] & Hkeys).
  destruct (perform_keeps_context sb c Hc) as [Hs Hd].
  pose proof (perform_keeps_keys sb c Hc) as Hk.
  unfold registers, keys_numbered. rewrite Hs, Hd, Hk.
  split; [exact Hseq |]. split; [exact Hlen |].
  split; [split; [exact Hnum | exact Hreg] | exact Hkeys].
Qed.

(** One call on a description: a registered description is answered from
    the object data, a new one is registered under the next id, as long
    as the descriptions registered so far and this one are fewer than
    2^32. *)
Lemma get_context_id_registers ds sb d :
  registers ds sb →
  Z.of_nat (size ({[ d ]} ∪ ds)) < GUINT_RANGE →
  let r := gtk_statusbar_get_context_id sb (Some d) in
  registers ({[ d ]} ∪ ds) r.2
  ∧ r.1 ≠ 0
  ∧ object_data r.2 !! context_key d = Some r.1
  ∧ (∀ key v, object_data sb !! key = Some v → object_data r.2 !! key = Some v).
Proof.
  intros Hinv Hbound.
  destruct (object_data sb !! context_key d) as [v|] eqn:Hlook.
  - destruct (registers_lookup ds sb _ v Hinv Hlook) as (i & Hi & _ & Hv).
    rewrite (get_context_id_known sb d v) by (assumption || lia). simpl.
    split; [| split; [lia | split; [assumption | auto]]].
    assert (Hin : d ∈ ds).
    { destruct Hinv as (_ & _ & _ & Hkeys).
      destruct (proj1 (Hkeys (context_key d))) as (d' & Hd' & Heq).
      - apply list_elem_of_lookup. eauto.
      - apply (inj context_key) in Heq. by subst d'. }
    by replace ({[ d ]} ∪ ds) with ds by set_solver.
  - destruct Hinv as (Hseq & Hlen & [Hnum Hreg] & Hkeys).
    assert (Hnew : d ∉ ds).
    { intros Hin.
      assert (Hkey : context_key d ∈ keys sb) by (apply Hkeys; eauto).
      apply list_elem_of_lookup in Hkey as [i Hi].
      rewrite (Hnum i _ Hi) in Hlook. discriminate. }
    assert (Hsize : size ({[ d ]} ∪ ds) = S (size ds)).
    { rewrite size_union by set_solver. by rewrite size_singleton. }
    rewrite Hsize in Hbound.
    assert (Hval : seq_context_id sb = 1 + Z.of_nat (size ds)).
    { rewrite Hseq. apply guint_wrap_small. lia. }
    destruct (get_context_id_fresh sb d Hlook) as (Hid & Hnext & Hdata).
    pose proof (get_context_id_fresh_keys sb d Hlook) as Hks.
    cbv zeta in Hid, Hnext, Hdata. cbv zeta.
    unfold g_object_set_data_full in Hdata.
    rewrite (proj2 (Z.eqb_neq (seq_context_id sb) 0)) in Hdata by lia.
    rewrite Hid.
    split; [| split; [lia | split]].
    + unfold registers, keys_numbered. rewrite Hks, Hdata, Hnext, Hsize.
      cbn [length]. split.
      { rewrite Hseq, guint_incr_wrap. f_equal. lia. }
      split; [by rewrite Hlen |]. split; [split |].
      * intros [|i] key Hi.
        -- injection Hi as <-. rewrite lookup_insert_eq. f_equal. lia.
        -- cbn in Hi. pose proof (Hnum i key Hi) as Hk.
           rewrite lookup_insert_ne by congruence. rewrite Hk. f_equal. lia.
      * intros key v Hkv.
        destruct (decide (context_key d = key)) as [<- | Hne]; [by left |].
        rewrite lookup_insert_ne in Hkv by assumption.
        right. eauto.
      * intros key. rewrite elem_of_cons, Hkeys. split.
        -- intros [-> | (d' & Hd' & ->)]; [exists d | exists d']; set_solver.
        -- intros (d' & Hd' & ->).
           apply elem_of_union in Hd' as [Hd' | Hd'];
             [left; f_equal; set_solver | right; eauto].
    + rewrite Hdata. apply lookup_insert_eq.
    + intros key v Hkv. rewrite Hdata, lookup_insert_ne; [assumption |].
      intros <-. congruence.
Qed.

Lemma after_registers cs : ∀ ds sb,
  registers ds sb →
  Z.of_nat (size (ds ∪ descriptions cs)) < GUINT_RANGE →
  registers (ds ∪ descriptions cs) (after sb cs)
  ∧ (∀ key v, object_data sb !! key = Some v →
              object_data (after sb cs) !! key = Some v).
Proof.
  induction cs as [|c cs IH]; intros ds sb Hinv Hbound.
  - simpl. split; [| auto]. by replace (ds ∪ ∅) with ds by set_solver.
  - destruct (is_get_context_id c) eqn:Hc.
    + destruct c as [[d|] | | | |]; try discriminate.
      cbn [descriptions] in *.
      replace (ds ∪ ({[ d ]} ∪ descriptions cs))
        with (({[ d ]} ∪ ds) ∪ descriptions cs) in * by set_solver.
      destruct (get_context_id_registers ds sb d Hinv) as (Hinv' & _ & _ & Hkeep).
      { eapply Z.le_lt_trans; [| exact Hbound].
        apply inj_le, subseteq_size. set_solver. }
      destruct (IH _ _ Hinv' Hbound) as [Hfinal Hkeep'].
      split; [exact Hfinal |].
      intros key v Hkv. apply Hkeep', Hkeep, Hkv.
    + rewrite (descriptions_other c cs Hc) in *.
      destruct (IH ds (perform sb c).2) as [Hfinal Hkeep'];
        [by apply registers_perform | assumption |].
      split; [exact Hfinal |].
      intros key v Hkv. apply Hkeep'.
      by rewrite (proj2 (perform_keeps_context sb c Hc)).
Qed.

(** C8, amended: the counter of context ids starts at 1 and, over any
    sequence of calls that asks for fewer than 2^32 different
    descriptions, however often each, any two calls of
    [gtk_statusbar_get_context_id] on a description return nonzero ids,
    the same id exactly when the descriptions are the same; a description
    not asked for before is given the current value of the counter, which
    then advances by one. *)
Theorem context_ids_stable_until_wrap :
  ∀ (cs1 cs2 : list call) (d1 d2 : string),
    Z.of_nat
      (size (descriptions
               (cs1 ++ GET_CONTEXT_ID (Some d1)
                    :: cs2 ++ [GET_CONTEXT_ID (Some d2)])))
      < GUINT_RANGE →
    let sb1 := after gtk_statusbar_new cs1 in
    let r1 := gtk_statusbar_get_context_id sb1 (Some d1) in
    let sb2 := after r1.2 cs2 in
    let r2 := gtk_statusbar_get_context_id sb2 (Some d2) in
    seq_context_id gtk_statusbar_new = 1
    ∧ r1.1 ≠ 0
    ∧ r2.1 ≠ 0
    ∧ (d1 = d2 ↔ r1.1 = r2.1)
    ∧ (GET_CONTEXT_ID (Some d1) ∉ cs1 →
       r1.1 = seq_context_id sb1
       ∧ seq_context_id r1.2 = guint_incr (seq_context_id sb1)).
Proof.
  intros cs1 cs2 d1 d2 Hbound sb1 r1 sb2 r2.
  rewrite descriptions_app in Hbound. cbn [descriptions] in Hbound.
  rewrite descriptions_app in Hbound. cbn [descriptions] in Hbound.
  set (ds1 := descriptions cs1) in *. set (ds2 := descriptions cs2) in *.
  assert (Hle : ∀ ds : gset string,
            ds ⊆ ds1 ∪ ({[ d1 ]} ∪ (ds2 ∪ ({[ d2 ]} ∪ ∅))) →
            Z.of_nat (size ds) < GUINT_RANGE).
  { intros ds Hsub. eapply Z.le_lt_trans; [| exact Hbound].
    by apply inj_le, subseteq_size. }
  destruct (after_registers cs1 ∅ gtk_statusbar_new registers_new) as [Hsb1 _].
  { apply Hle. fold ds1. set_solver. }
  fold ds1 sb1 in Hsb1.
  replace (∅ ∪ ds1) with ds1 in Hsb1 by set_solver.
  destruct (get_context_id_registers ds1 sb1 d1 Hsb1) as (Hr1 & Hid1 & Hkey1 & _).
  { apply Hle. set_solver. }
  fold r1 in Hr1, Hid1, Hkey1.
  destruct (after_registers cs2 _ r1.2 Hr1) as [Hsb2 Hkeep].
  { apply Hle. fold ds2. set_solver. }
  fold ds2 sb2 in Hsb2, Hkeep.
  destruct (get_context_id_registers _ sb2 d2 Hsb2)
    as (Hr2 & Hid2 & Hkey2 & Hkeep2).
  { apply Hle. set_solver. }
  fold r2 in Hr2, Hid2, Hkey2, Hkeep2.
  split; [reflexivity |]. split; [assumption |]. split; [assumption |].
  split.
  - pose proof (Hkeep2 _ _ (Hkeep _ _ Hkey1)) as Hkey1'.
    split.
    + intros <-. rewrite Hkey1' in Hkey2. by injection Hkey2.
    + intros Heq. rewrite <- Heq in Hkey2.
      destruct (registers_lookup _ _ _ _ Hr2 Hkey1') as (i1 & Hi1 & Hv1 & _).
      destruct (registers_lookup _ _ _ _ Hr2 Hkey2) as (i2 & Hi2 & Hv2 & _).
      assert (i1 = i2) by lia. subst i2.
      apply (inj context_key). congruence.
  - intros Hnew.
    destruct (get_context_id_fresh sb1 d1) as (Hid & Hnext & _);
      [by apply new_description_unregistered |].
    by split.
Qed.

Lemma context_ids_stable_until_wrap_witness :
  let cs1 := [GET_CONTEXT_ID (Some "net"); PUSH 1 (Some "a")] in
  let cs2 := [GET_CONTEXT_ID (Some "net"); POP 1; GET_CONTEXT_ID (Some "net")] in
  Z.of_nat
    (size (descriptions
             (cs1 ++ GET_CONTEXT_ID (Some "disk")
                  :: cs2 ++ [GET_CONTEXT_ID (Some "disk")])))
    < GUINT_RANGE
  ∧ (gtk_statusbar_get_context_id (after gtk_statusbar_new cs1) (Some "disk")).1
    ≠ 0.
Proof.
  intros cs1 cs2.
  assert (Hbound :
    Z.of_nat
      (size (descriptions
               (cs1 ++ GET_CONTEXT_ID (Some "disk")
                    :: cs2 ++ [GET_CONTEXT_ID (Some "disk")])))
      < GUINT_RANGE) by (vm_compute; reflexivity).
  split; [exact Hbound |].
  exact (proj1 (proj2 (context_ids_stable_until_wrap cs1 cs2 "disk" "disk" Hbound))).
Defined.

Lemma numbered_descriptions_after (n : nat) :
  Z.of_nat n < GUINT_RANGE →
  let sb := after gtk_statusbar_new (numbered_descriptions n) in
  seq_context_id sb = guint_wrap (1 + Z.of_nat n)
  ∧ (∀ key v, object_data sb !! key = Some v
              ↔ ∃ i : nat, (i < n)%nat ∧ key = context_key (pretty i)
                           ∧ v = Z.of_nat i + 1).
Proof.
  induction n as [|n IH]; intros Hbound sb.
  - split; [reflexivity |]. intros key v. subst sb. simpl. rewrite lookup_empty.
    split; [discriminate | intros (i & Hi & _); lia].
  - subst sb. unfold numbered_descriptions.
    rewrite seq_S, fmap_app, after_app. change (0 + n)%nat with n.
    cbn [fmap list_fmap]. fold (numbered_descriptions n).
    destruct IH as [Hseq Hkeys]; [lia |].
    revert Hseq Hkeys.
    generalize (after gtk_statusbar_new (numbered_descriptions n)).
    intros sb Hseq Hkeys.
    change (after sb [GET_CONTEXT_ID (Some (pretty n))])
      with (gtk_statusbar_get_context_id sb (Some (pretty n))).2.
    assert (Hlook : object_data sb !! context_key (pretty n) = None).
    { destruct (object_data sb !! context_key (pretty n)) as [v|] eqn:Hl;
        [| reflexivity].
      apply Hkeys in Hl as (i & Hi & Hkey & _).
      apply (inj context_key) in Hkey. apply (inj pretty) in Hkey. lia. }
    destruct (get_context_id_fresh sb (pretty n) Hlook) as (_ & Hnext & Hdata).
    assert (Hval : seq_context_id sb = 1 + Z.of_nat n).
    { rewrite Hseq. apply guint_wrap_small. lia. }
    split.
    + rewrite Hnext, Hseq, guint_incr_wrap. f_equal. lia.
    + intros key v. rewrite Hdata, Hval. unfold g_object_set_data_full.
      rewrite (proj2 (Z.eqb_neq (1 + Z.of_nat n) 0)) by lia.
      destruct (decide (context_key (pretty n) = key)) as [<- | Hne].
      * rewrite lookup_insert_eq. split.
        -- intros [= <-]. exists n. split; [lia |]. split; [reflexivity | lia].
        -- intros (i & Hi & Hkey & ->).
           apply (inj context_key) in Hkey. apply (inj pretty) in Hkey. subst i.
           f_equal. lia.
      * rewrite lookup_insert_ne by assumption. rewrite Hkeys. split.
        -- intros (i & Hi & Hkey & Hv). exists i. split; [lia | by split].
        -- intros (i & Hi & Hkey & Hv). exists i. split; [| by split].
           destruct (decide (i = n)) as [-> | Hin]; [congruence | lia].
Qed.

(** C8, as stated, fails once the counter has run through its 32 bits:
    after the descriptions "0", "1", ... up to 2^32 - 2 have been
    registered, asking twice for the next description gives 0 and then 1,
    the id that the description "0" holds. *)
Lemma context_id_differs_after_wrap :
  let d := pretty (Z.to_nat (GUINT_RANGE - 1)) in
  let r1 := gtk_statusbar_get_context_id context_id_wrap_state (Some d) in
  let r2 := gtk_statusbar_get_context_id r1.2 (Some d) in
  r1.1 = 0
  ∧ r2.1 = 1
  ∧ r1.1 ≠ r2.1
  ∧ d ≠ pretty 0%nat
  ∧ (gtk_statusbar_get_context_id r2.2 (Some (pretty 0%nat))).1 = 1.
Proof.
  intros d r1 r2. subst r2 r1 d. unfold context_id_wrap_state.
  assert (Hpos : (0 < Z.to_nat (GUINT_RANGE - 1))%nat)
    by (unfold GUINT_RANGE; lia).
  destruct (numbered_descriptions_after (Z.to_nat (GUINT_RANGE - 1)))
    as [Hseq Hkeys]; [unfold GUINT_RANGE; lia |].
  rewrite Z2Nat.id in Hseq by (unfold GUINT_RANGE; lia).
  change (guint_wrap (1 + (GUINT_RANGE - 1))) with 0 in Hseq.
  revert Hseq Hkeys Hpos.
  generalize (Z.to_nat (GUINT_RANGE - 1)).
  intros n. generalize (after gtk_statusbar_new (numbered_descriptions n)).
  intros sb Hseq Hkeys Hpos.
  assert (Hlook : object_data sb !! context_key (pretty n) = None).
  { destruct (object_data sb !! context_key (pretty n)) as [v|] eqn:Hl;
      [| reflexivity].
    apply Hkeys in Hl as (i & Hi & Hkey & _).
    apply (inj context_key) in Hkey. apply (inj pretty) in Hkey. lia. }
  assert (Hzero : object_data sb !! context_key (pretty 0%nat) = Some 1).
  { apply Hkeys. exists 0%nat. split; [lia |]. split; reflexivity. }
  assert (Hne : pretty n ≠ pretty 0%nat).
  { intros Heq. apply (inj pretty) in Heq. lia. }
  destruct (get_context_id_fresh sb (pretty n) Hlook) as (Hid1 & Hnext1 & Hdata1).
  cbv zeta in Hid1, Hnext1, Hdata1.
  rewrite Hseq in Hid1, Hnext1, Hdata1.
  change (guint_incr 0) with 1 in Hnext1.
  unfold g_object_set_data_full in Hdata1.
  change (0 =? 0) with true in Hdata1. cbv iota in Hdata1.
  assert (Hlook2 : object_data (gtk_statusbar_get_context_id sb (Some (pretty n))).2
                     !! context_key (pretty n) = None).
  { rewrite Hdata1. apply lookup_delete_eq. }
  destruct (get_context_id_fresh _ (pretty n) Hlook2) as (Hid2 & Hnext2 & Hdata2).
  cbv zeta in Hid2, Hnext2, Hdata2.
  rewrite Hnext1 in Hid2, Hdata2.
  unfold g_object_set_data_full in Hdata2.
  change (1 =? 0) with false in Hdata2. cbv iota in Hdata2.
  split; [exact Hid1 |]. split; [exact Hid2 |].
  split; [rewrite Hid1, Hid2; lia |]. split; [exact Hne |].
  erewrite get_context_id_known; [reflexivity | | lia].
  rewrite Hdata2, lookup_insert_ne, Hdata1, lookup_delete_ne; [exact Hzero | |].
  - intros Heq. apply (inj context_key) in Heq. contradiction.
  - intros Heq. apply (inj context_key) in Heq. contradiction.
Qed.

End StatusbarTheory.

(** * Properties of the colour scale *)

Module ColorScaleTheory.
Import ColorScale.

Lemma gint_in_range z : G_MININT ≤ z ≤ G_MAXINT → gint z = Done z.
Proof.
  intros [Hlo Hhi]. unfold gint.
  by rewrite (proj2 (Z.leb_le _ _) Hlo), (proj2 (Z.leb_le _ _) Hhi).
Qed.

Lemma gint_cases z : gint z = Done z ∨ gint z = Fault SIGNED_OVERFLOW.
Proof. unfold gint. destruct (_ && _); [by left | by right]. Qed.

Lemma guard_passed width height :
  ¬ (width ≤ 1 ∨ height ≤ 1) → (width <=? 1) || (height <=? 1) = false.
Proof.
  intros H. apply orb_false_intro; apply Z.leb_gt; lia.
Qed.

Lemma guard_taken width height :
  width ≤ 1 ∨ height ≤ 1 → (width <=? 1) || (height <=? 1) = true.
Proof.
  intros [H | H]; apply orb_true_intro; [left | right]; by apply Z.leb_le.
Qed.

Section Trough.

Variable gtk_hsv_to_rgb : float → float → float → float * float * float.

Lemma gdouble_div_int_nonzero a n :
  n ≠ 0 → gdouble_div_int a n = Done (PrimFloat.div a (gdouble_of_int n)).
Proof.
  intros Hn. unfold gdouble_div_int. by rewrite (proj2 (Z.eqb_neq _ _) Hn).
Qed.

(** Without the test on [width] and [height] the hue branch does divide
    by zero, for a trough one pixel high. *)
Lemma hue_branch_unguarded snapshot x y :
  snapshot_trough_hue gtk_hsv_to_rgb snapshot x y 5 1 = Fault DIVISION_BY_ZERO.
Proof. reflexivity. Qed.

Lemma snapshot_trough_hue_no_zero_divisor snapshot x y width height :
  1 < height →
  snapshot_trough_hue gtk_hsv_to_rgb snapshot x y width height
  ≠ Fault DIVISION_BY_ZERO.
Proof.
  intros Hh. unfold snapshot_trough_hue.
  destruct (gint_cases (width * 3)) as [-> | ->]; [| discriminate].
  cbn [mbind outcome_bind].
  destruct (gint_cases (width * height)) as [-> | ->]; [| discriminate].
  cbn [mbind outcome_bind].
  destruct (gint_cases (width * height * 3)) as [-> | ->]; [| discriminate].
  cbn [mbind outcome_bind].
  destruct (gint_cases (height - 1)) as [-> | ->]; [| discriminate].
  cbn [mbind outcome_bind].
  rewrite gdouble_div_int_nonzero by lia.
  discriminate.
Qed.

Lemma snapshot_trough_alpha_no_zero_divisor scale snapshot x y width height :
  snapshot_trough_alpha scale snapshot x y width height
  ≠ Fault DIVISION_BY_ZERO.
Proof.
  unfold snapshot_trough_alpha.
  destruct (gint_cases (x + width)) as [-> | ->]; [| discriminate].
  cbn [mbind outcome_bind]. by destruct (right_to_left scale).
Qed.

(** C10: [gtk_color_scale_snapshot_trough] returns the snapshot as it got
    it, with nothing drawn, whenever [width <= 1] or [height <= 1]; so the
    hue branch runs only with a divisor [height - 1] of at least 1, and
    no call ever divides by zero. *)
Theorem trough_guard_excludes_zero_divisor :
  ∀ (scale : GtkColorScale) (snapshot : GtkSnapshot) (x y width height : Z),
    let result :=
      gtk_color_scale_snapshot_trough gtk_hsv_to_rgb scale snapshot
        x y width height in
    (width ≤ 1 ∨ height ≤ 1 → result = Done snapshot)
    ∧ (type scale = GTK_COLOR_SCALE_HUE → ¬ (width ≤ 1 ∨ height ≤ 1) →
       result = snapshot_trough_hue gtk_hsv_to_rgb snapshot x y width height
       ∧ 1 ≤ height - 1)
    ∧ result ≠ Fault DIVISION_BY_ZERO.
Proof.
  intros scale snapshot x y width height result. subst result.
  unfold gtk_color_scale_snapshot_trough.
  split; [| split].
  - intros Hguard. by rewrite guard_taken.
  - intros Htype Hguard. rewrite guard_passed, Htype by assumption.
    split; [reflexivity | lia].
  - destruct (Z.leb_spec width 1) as [Hw | Hw]; [discriminate |].
    destruct (Z.leb_spec height 1) as [Hh | Hh]; [discriminate |].
    cbn [orb]. destruct (type scale).
    + by apply snapshot_trough_hue_no_zero_divisor.
    + apply snapshot_trough_alpha_no_zero_divisor.
Qed.

Lemma gint_out_of_range z :
  ¬ (G_MININT ≤ z ≤ G_MAXINT) → gint z = Fault SIGNED_OVERFLOW.
Proof.
  intros Hout. unfold gint.
  destruct (Z.leb_spec G_MININT z), (Z.leb_spec z G_MAXINT); simpl;
    (reflexivity || lia).
Qed.

(** C7: for an alpha scale and a trough more than one pixel wide and
    high, [gtk_color_scale_snapshot_trough] appends, after the node of
    the checkered background, a linear gradient over the rectangle of the
    trough with two stops: the colour last set with
    [gtk_color_scale_set_rgba] with alpha 0 at offset 0 and with alpha 1
    at offset 1. The gradient runs from the left edge to the right one,
    and from the right edge to the left one for a horizontal scale in a
    right-to-left widget. The right edge is the [int] sum [x + width];
    the call is undefined exactly when that sum does not fit. *)
Theorem alpha_trough_gradient :
  ∀ (scale : GtkColorScale) (c : GdkRGBA) (snapshot : GtkSnapshot)
    (x y width height : Z),
    type scale = GTK_COLOR_SCALE_ALPHA →
    1 < width →
    1 < height →
    let result :=
      gtk_color_scale_snapshot_trough gtk_hsv_to_rgb
        (gtk_color_scale_set_rgba scale c) snapshot x y width height in
    (G_MININT ≤ x + width ≤ G_MAXINT →
     ∃ background start_point end_point,
       result
       = Done (snapshot
               ++ [cairo_node (GRAPHENE_RECT_INIT x y width height) background;
                   linear_gradient_node (GRAPHENE_RECT_INIT x y width height)
                     start_point end_point
                     [ ColorStop 0 (RGBA (red c) (green c) (blue c) 0);
                       ColorStop 1 (RGBA (red c) (green c) (blue c) 1) ]])
       ∧ (orientation scale = GTK_ORIENTATION_HORIZONTAL
          ∧ direction scale = GTK_TEXT_DIR_RTL →
          start_point = graphene_point_init (x + width) y
          ∧ end_point = graphene_point_init x y)
       ∧ (¬ (orientation scale = GTK_ORIENTATION_HORIZONTAL
             ∧ direction scale = GTK_TEXT_DIR_RTL) →
          start_point = graphene_point_init x y
          ∧ end_point = graphene_point_init (x + width) y))
    ∧ (¬ (G_MININT ≤ x + width ≤ G_MAXINT) → result = Fault SIGNED_OVERFLOW).
Proof.
  intros scale c snapshot x y width height Htype Hw Hh result. subst result.
  unfold gtk_color_scale_snapshot_trough.
  rewrite guard_passed by lia. cbn [type gtk_color_scale_set_rgba].
  rewrite Htype. unfold snapshot_trough_alpha.
  split.
  - intros Hrange.
    rewrite gint_in_range by assumption. cbn [mbind outcome_bind].
    unfold right_to_left. cbn [orientation direction gtk_color_scale_set_rgba].
    destruct (orientation scale), (direction scale);
      eexists _, _, _; (split; [reflexivity |]);
      (split; [intros [Ho Hd]; try discriminate; by split
              | intros Hnot; try (exfalso; apply Hnot; by split); by split]).
  - intros Hout. by rewrite gint_out_of_range.
Qed.

End Trough.

Lemma alpha_trough_gradient_witness :
  let scale := ColorScale (RGBA 0 0 0 1) GTK_COLOR_SCALE_ALPHA
                 GTK_ORIENTATION_HORIZONTAL GTK_TEXT_DIR_RTL false in
  type scale = GTK_COLOR_SCALE_ALPHA
  ∧ 1 < 200 ∧ 1 < 16
  ∧ ∃ background start_point end_point,
      gtk_color_scale_snapshot_trough (λ h s v, (v, v, v))
        (gtk_color_scale_set_rgba scale (RGBA 1 0.5 0 1)) [] 10 20 200 16
      = Done [cairo_node (GRAPHENE_RECT_INIT 10 20 200 16) background;
              linear_gradient_node (GRAPHENE_RECT_INIT 10 20 200 16)
                start_point end_point
                [ ColorStop 0 (RGBA 1 0.5 0 0); ColorStop 1 (RGBA 1 0.5 0 1) ]]
      ∧ start_point = Point 210 20 ∧ end_point = Point 10 20.
Proof.
  intros scale.
  assert (Htype : type scale = GTK_COLOR_SCALE_ALPHA) by reflexivity.
  assert (Hw : 1 < 200) by lia.
  assert (Hh : 1 < 16) by lia.
  assert (Hrange : G_MININT ≤ 10 + 200 ≤ G_MAXINT)
    by (unfold G_MININT, G_MAXINT; lia).
  repeat (split; [assumption |]).
  destruct (proj1 (alpha_trough_gradient (λ h s v, (v, v, v)) scale
                     (RGBA 1 0.5 0 1) [] 10 20 200 16 Htype Hw Hh) Hrange)
    as (background & start_point & end_point & Heq & Hrtl & _).
  exists background, start_point, end_point.
  split; [exact Heq |].
  destruct Hrtl as [-> ->]; [by split |]. by split.
Defined.

(** The hue branch on a trough two pixels wide and three high, with a
    conversion that returns the hue in each channel: the rows hold the
    hues 0, 1/2 and 1 scaled to a byte. *)
Example hue_trough_2_by_3 :
  gtk_color_scale_snapshot_trough (λ h s v, (h, h, h))
    (ColorScale (RGBA 0 0 0 1) GTK_COLOR_SCALE_HUE
       GTK_ORIENTATION_VERTICAL GTK_TEXT_DIR_LTR false)
    [] 0 0 2 3
  = Done [texture_node
            (Texture 2 3 GDK_MEMORY_R8G8B8
               [0; 0; 0; 0; 0; 0;
                127; 127; 127; 127; 127; 127;
                255; 255; 255; 255; 255; 255] 6)
            (Rect 0 0 2 3)].
Proof. vm_compute. reflexivity. Qed.

(** The row hues are products with the rounded step [1.0 / (height - 1)]:
    for a trough 50 pixels high the hue of the bottom row falls one
    rounding short of 1, which the quotient [49 / 49] would give. *)
Example bottom_row_hue_50 :
  CLAMP (PrimFloat.mul (gdouble_of_int 49)
           (PrimFloat.div 1 (gdouble_of_int (50 - 1)))) 0 1
  = 0.99999999999999989%float
  ∧ CLAMP (PrimFloat.div (gdouble_of_int 49) (gdouble_of_int (50 - 1))) 0 1
    = 1%float.
Proof. split; vm_compute; reflexivity. Qed.

(** The conversion to [float] rounds beyond 24 bits. *)
Example gfloat_of_int_rounds :
  gfloat_of_int 16777217 = 16777216
  ∧ gfloat_of_int 16777219 = 16777220
  ∧ gfloat_of_int (-16777219) = -16777220
  ∧ gfloat_of_int 1920 = 1920.
Proof. repeat split. Qed.

End ColorScaleTheory.

(** * Further properties of the statusbar *)

Module StatusbarMore.
Import Statusbar StatusbarTheory.

(** ** Sub-stacks *)

Lemma substack_unlink_first_same ctx l :
  substack ctx (unlink_first_context ctx l) = tail (substack ctx l).
Proof.
  unfold substack. induction l as [|m l IH]; simpl; [reflexivity |].
  destruct (Z.eqb_spec (context_id m) ctx) as [Heq | Hne].
  - by rewrite filter_cons_True by assumption.
  - rewrite !filter_cons_False by assumption. exact IH.
Qed.

Lemma substack_unlink_first_other ctx ctx' l :
  ctx' ≠ ctx →
  substack ctx' (unlink_first_context ctx l) = substack ctx' l.
Proof.
  intros Hne. unfold substack. induction l as [|m l IH]; simpl; [reflexivity |].
  destruct (Z.eqb_spec (context_id m) ctx) as [Heq | Hne'].
  - rewrite filter_cons_False; [reflexivity | congruence].
  - destruct (decide (context_id m = ctx')) as [Hm | Hm].
    + rewrite !filter_cons_True by assumption. by rewrite IH.
    + rewrite !filter_cons_False by assumption. exact IH.
Qed.

Lemma substack_filter_other ctx ctx' l :
  ctx' ≠ ctx →
  substack ctx' (filter (λ m, context_id m ≠ ctx) l) = substack ctx' l.
Proof.
  intros Hne. unfold substack. induction l as [|m l IH]; [reflexivity |].
  destruct (decide (context_id m = ctx)) as [Hm | Hm].
  - rewrite (filter_cons_False (λ m, context_id m ≠ ctx)) by tauto.
    rewrite (filter_cons_False (λ m, context_id m = ctx')) by congruence.
    exact IH.
  - rewrite (filter_cons_True (λ m, context_id m ≠ ctx)) by assumption.
    destruct (decide (context_id m = ctx')) as [Hm' | Hm'].
    + rewrite !filter_cons_True by assumption. by rewrite IH.
    + rewrite !filter_cons_False by assumption. exact IH.
Qed.

Lemma substack_filter_same ctx l :
  substack ctx (filter (λ m, context_id m ≠ ctx) l) = [].
Proof.
  unfold substack. induction l as [|m l IH]; [reflexivity |].
  destruct (decide (context_id m = ctx)) as [Hm | Hm].
  - rewrite (filter_cons_False (λ m, context_id m ≠ ctx)) by tauto. exact IH.
  - rewrite (filter_cons_True (λ m, context_id m ≠ ctx)) by assumption.
    rewrite filter_cons_False by assumption. exact IH.
Qed.

(** X1: the stack is one sub-stack per context id. A push puts its
    message on top of the sub-stack of its context, a pop takes the top
    of that sub-stack off, and [gtk_statusbar_remove_all] empties it; the
    sub-stack of every other context id is left as it was by all three. *)
Theorem substacks_are_independent :
  ∀ (sb : GtkStatusbar) (ctx ctx' : Z) (txt : string),
    substack ctx (messages (gtk_statusbar_push sb ctx (Some txt)).2)
    = Msg txt ctx (seq_message_id sb) :: substack ctx (messages sb)
    ∧ substack ctx (messages (gtk_statusbar_pop sb ctx))
      = tail (substack ctx (messages sb))
    ∧ substack ctx (messages (gtk_statusbar_remove_all sb ctx)) = []
    ∧ (ctx' ≠ ctx →
       substack ctx' (messages (gtk_statusbar_push sb ctx (Some txt)).2)
       = substack ctx' (messages sb)
       ∧ substack ctx' (messages (gtk_statusbar_pop sb ctx))
         = substack ctx' (messages sb)
       ∧ substack ctx' (messages (gtk_statusbar_remove_all sb ctx))
         = substack ctx' (messages sb)).
Proof.
  intros sb ctx ctx' txt.
  rewrite !push_messages, !pop_messages, !remove_all_messages.
  split; [| split; [| split]].
  - unfold substack. by rewrite filter_cons_True.
  - apply substack_unlink_first_same.
  - apply substack_filter_same.
  - intros Hne. split; [| split].
    + unfold substack. rewrite filter_cons_False; [reflexivity |].
      simpl. congruence.
    + by apply substack_unlink_first_other.
    + by apply substack_filter_other.
Qed.

(** ** Last in, first out *)

Lemma after_pops_one_more sb ctx n :
  after sb (replicate (S n) (POP ctx))
  = gtk_statusbar_pop (after sb (replicate n (POP ctx))) ctx.
Proof.
  revert sb. induction n as [|n IH]; intros sb; [reflexivity |].
  change (after sb (replicate (S (S n)) (POP ctx)))
    with (after (gtk_statusbar_pop sb ctx) (replicate (S n) (POP ctx))).
  rewrite IH. reflexivity.
Qed.

Lemma pushes_then_pops ctx (ts : list string) : ∀ sb,
  messages (after (after sb ((λ t, PUSH ctx (Some t)) <$> ts))
              (replicate (length ts) (POP ctx)))
  = messages sb.
Proof.
  induction ts as [|t ts IH]; intros sb; [reflexivity |].
  change (length (t :: ts)) with (S (length ts)).
  rewrite after_pops_one_more, pop_messages.
  change (after sb ((λ t, PUSH ctx (Some t)) <$> t :: ts))
    with (after (gtk_statusbar_push sb ctx (Some t)).2
            ((λ t, PUSH ctx (Some t)) <$> ts)).
  rewrite IH, push_messages. by apply unlink_first_context_head.
Qed.

(** X2: a producer that pushes any number of messages under its context
    id and then pops as many times leaves the stack of messages as it
    found it, and the label then shows what is on top of that stack. *)
Theorem pushes_undone_by_as_many_pops :
  ∀ (sb : GtkStatusbar) (ctx : Z) (t : string) (ts : list string),
    let sb' := after sb (((λ t, PUSH ctx (Some t)) <$> (t :: ts))
                         ++ replicate (length (t :: ts)) (POP ctx)) in
    messages sb' = messages sb
    ∧ label sb' = top_text (messages sb).
Proof.
  intros sb ctx t ts sb'.
  assert (Hms : messages sb' = messages sb).
  { subst sb'. rewrite after_app. apply pushes_then_pops. }
  split; [exact Hms |].
  rewrite <- Hms. subst sb'.
  change (length (t :: ts)) with (S (length ts)).
  rewrite after_app, after_pops_one_more.
  apply pop_shows_top.
Qed.

(** ** Removing by id *)

Lemma unlink_first_message_middle ctx mid above m below :
  Forall (λ x, ¬ matches ctx mid x) above →
  matches ctx mid m →
  unlink_first_message ctx mid (above ++ m :: below) = above ++ below.
Proof.
  intros Habove [Hc Hm].
  induction above as [|a above IH]; simpl.
  - by rewrite (proj2 (Z.eqb_eq _ _) Hc), (proj2 (Z.eqb_eq _ _) Hm).
  - apply Forall_cons in Habove as [Ha Habove].
    destruct (Z.eqb_spec (context_id a) ctx) as [Hac | Hac];
      destruct (Z.eqb_spec (message_id a) mid) as [Ham | Ham]; simpl;
      [exfalso; apply Ha; by split | by rewrite IH..].
Qed.

Lemma remove_emitted_label sb ctx mid :
  (0 < mid ∧ ∃ top rest, messages sb = top :: rest ∧ matches ctx mid top)
  ∨ (emitted (gtk_statusbar_remove sb ctx mid) = emitted sb
     ∧ label (gtk_statusbar_remove sb ctx mid) = label sb
     ∧ ¬ (0 < mid ∧ ∃ top rest, messages sb = top :: rest ∧ matches ctx mid top)).
Proof.
  unfold gtk_statusbar_remove.
  destruct (Z.ltb_spec 0 mid) as [Hmid | Hmid]; simpl negb; cbv iota.
  2: { right. repeat split. intros [H _]. lia. }
  destruct (messages sb) as [|top rest] eqn:Hms.
  { right. repeat split. intros (_ & t & r & Habs & _). discriminate. }
  destruct (Z.eqb_spec (context_id top) ctx) as [Hc | Hc];
    destruct (Z.eqb_spec (message_id top) mid) as [Hm | Hm]; simpl andb; cbv iota.
  1: { left. split; [assumption |]. exists top, rest. by repeat split. }
  all: right; repeat split;
    intros (_ & t & r & [= <- <-] & Hc' & Hm'); contradiction.
Qed.

(** X3: [gtk_statusbar_remove] emits text-popped, once and for the new
    top of the stack, exactly when the message it removes is the topmost
    one; in that case the label is set to the text of the new top. In
    every other case, a refused message id 0 included, no signal is
    emitted and the label is not touched. *)
Theorem remove_emits_only_for_the_top :
  ∀ (sb : GtkStatusbar) (ctx mid : Z),
    let sb' := gtk_statusbar_remove sb ctx mid in
    let top_removed :=
      0 < mid ∧ ∃ top rest, messages sb = top :: rest ∧ matches ctx mid top in
    (top_removed →
     emitted sb' = popped_signal (messages sb') :: emitted sb
     ∧ label sb' = top_text (messages sb')
     ∧ messages sb' = tail (messages sb))
    ∧ (¬ top_removed → emitted sb' = emitted sb ∧ label sb' = label sb).
Proof.
  intros sb ctx mid sb' top_removed. subst sb' top_removed. split.
  - intros (Hmid & top & rest & Hms & Hc & Hm).
    unfold gtk_statusbar_remove.
    rewrite (proj2 (Z.ltb_lt _ _) Hmid), Hms. simpl negb. cbv iota.
    rewrite (proj2 (Z.eqb_eq _ _) Hc), (proj2 (Z.eqb_eq _ _) Hm).
    simpl andb. cbv iota.
    rewrite pop_emitted, pop_label, pop_messages, Hms.
    rewrite unlink_first_context_head by assumption. by repeat split.
  - intros Hnot.
    destruct (remove_emitted_label sb ctx mid) as [Htop | (He & Hl & _)];
      [contradiction | by split].
Qed.

(** X4: in a state reached from a new statusbar with fewer than 2^32
    pushes, every message on the stack can be taken off by its own
    context id and message id: [gtk_statusbar_remove] with that pair
    removes this very message and keeps all the others in place. *)
Theorem remove_takes_the_named_message :
  ∀ (cs : list call) (above below : list GtkStatusbarMsg)
    (m : GtkStatusbarMsg),
    count_calls is_push cs < GUINT_RANGE →
    messages (after gtk_statusbar_new cs) = above ++ m :: below →
    messages (gtk_statusbar_remove (after gtk_statusbar_new cs)
                (context_id m) (message_id m))
    = above ++ below.
Proof.
  intros cs above below m Hbound Hms.
  pose proof (count_calls_nonneg is_push cs) as Hcs.
  destruct (after_message_ids_upto cs 0 gtk_statusbar_new)
    as (_ & Hrange & Hsorted);
    [lia | lia | apply new_message_ids_upto |].
  revert Hms Hrange Hsorted. generalize (after gtk_statusbar_new cs).
  intros sb Hms Hrange Hsorted.
  rewrite Hms in Hrange, Hsorted.
  assert (Hmid : 0 < message_id m).
  { apply Forall_app in Hrange as [_ Hr].
    apply Forall_cons in Hr as [Hr _]. simpl in Hr. lia. }
  assert (Habove : Forall (λ x, ¬ matches (context_id m) (message_id m) x) above).
  { apply StronglySorted_app in Hsorted as (Hlt & _ & _).
    apply Forall_forall. intros a Ha [_ Hid].
    specialize (Hlt a m Ha). simpl in Hlt.
    assert (m ∈ m :: below) as Hin by left.
    specialize (Hlt Hin). lia. }
  unfold gtk_statusbar_remove.
  rewrite (proj2 (Z.ltb_lt _ _) Hmid). simpl negb. cbv iota.
  rewrite Hms. destruct above as [|a above].
  - cbn [app]. rewrite !Z.eqb_refl. simpl andb. cbv iota.
    rewrite pop_messages, Hms. by apply unlink_first_context_head.
  - cbn [app]. apply Forall_cons in Habove as [Ha Habove].
    destruct (Z.eqb_spec (context_id a) (context_id m)) as [Hc | Hc];
      destruct (Z.eqb_spec (message_id a) (message_id m)) as [Hi | Hi];
      simpl andb; cbv iota; [exfalso; apply Ha; by split | ..].
    all: cbn [messages set_messages];
      change (a :: above ++ m :: below) with ((a :: above) ++ m :: below);
      rewrite unlink_first_message_middle;
      [reflexivity | constructor; assumption | by split].
Qed.

Lemma remove_takes_the_named_message_witness :
  let cs := [PUSH 1 (Some "a"); PUSH 2 (Some "b"); PUSH 1 (Some "c")] in
  count_calls is_push cs < GUINT_RANGE
  ∧ messages (after gtk_statusbar_new cs)
    = [Msg "c" 1 3] ++ Msg "b" 2 2 :: [Msg "a" 1 1]
  ∧ messages (gtk_statusbar_remove (after gtk_statusbar_new cs) 2 2)
    = [Msg "c" 1 3] ++ [Msg "a" 1 1].
Proof.
  intros cs.
  assert (Hbound : count_calls is_push cs < GUINT_RANGE) by reflexivity.
  assert (Hms : messages (after gtk_statusbar_new cs)
                = [Msg "c" 1 3] ++ Msg "b" 2 2 :: [Msg "a" 1 1]) by reflexivity.
  split; [exact Hbound |]. split; [exact Hms |].
  exact (remove_takes_the_named_message cs [Msg "c" 1 3] [Msg "a" 1 1]
           (Msg "b" 2 2) Hbound Hms).
Defined.

(** X5: a message pushed while the counter of message ids is not 0 is
    taken back by [gtk_statusbar_remove] with the same context id and the
    id the push returned. The stack, the list of keys, the counter of
    context ids and the registered ids are then as before the push; the
    counter of message ids has advanced by one; two signals were emitted,
    text-pushed for the message and then text-popped for the top of the
    old stack; and the label shows the text on top of the old stack,
    which is what it showed before when it was in step with the stack. *)
Theorem remove_undoes_push :
  ∀ (sb : GtkStatusbar) (ctx : Z) (txt : string),
    0 < seq_message_id sb →
    let pushed := gtk_statusbar_push sb ctx (Some txt) in
    let sb' := gtk_statusbar_remove pushed.2 ctx pushed.1 in
    messages sb' = messages sb
    ∧ label sb' = top_text (messages sb)
    ∧ seq_message_id sb' = guint_incr (seq_message_id sb)
    ∧ keys sb' = keys sb
    ∧ seq_context_id sb' = seq_context_id sb
    ∧ object_data sb' = object_data sb
    ∧ emitted sb'
      = popped_signal (messages sb) :: TEXT_PUSHED ctx (Some txt) :: emitted sb
    ∧ (shows_top sb → label sb' = label sb).
Proof.
  intros sb ctx txt Hseq pushed sb'. subst sb' pushed.
  rewrite push_returns. unfold gtk_statusbar_remove.
  rewrite (proj2 (Z.ltb_lt _ _) Hseq). simpl negb. cbv iota.
  rewrite push_messages. cbn [context_id message_id].
  rewrite !Z.eqb_refl. simpl andb. cbv iota.
  rewrite pop_messages, pop_label, pop_seq_message_id, pop_keys, pop_emitted,
    push_messages, push_seq_message_id.
  destruct (pop_context_fields (gtk_statusbar_push sb ctx (Some txt)).2 ctx)
    as [Hs Hd].
  rewrite Hs, Hd.
  rewrite unlink_first_context_head by reflexivity.
  split; [reflexivity |]. split; [reflexivity |]. split; [reflexivity |].
  split; [reflexivity |]. split; [reflexivity |]. split; [reflexivity |].
  split; [reflexivity |]. intros Htop. symmetry. exact Htop.
Qed.

Lemma remove_undoes_push_witness :
  let sb := Statusbar "a" [Msg "a" 1 1] [] 2 2 ∅ [] in
  0 < seq_message_id sb
  ∧ messages (gtk_statusbar_remove (gtk_statusbar_push sb 5 (Some "b")).2 5
                (gtk_statusbar_push sb 5 (Some "b")).1)
    = messages sb.
Proof.
  intros sb.
  assert (Hseq : 0 < seq_message_id sb) by reflexivity.
  split; [exact Hseq |].
  exact (proj1 (remove_undoes_push sb 5 "b" Hseq)).
Defined.

(** ** Removing a whole context *)

Lemma unlink_all_context_nothing ctx l :
  Forall (λ m, context_id m ≠ ctx) l → unlink_all_context ctx l = l.
Proof.
  induction 1 as [|m l Hm _ IH]; simpl; [reflexivity |].
  by rewrite (proj2 (Z.eqb_neq _ _) Hm), IH.
Qed.

(** X6: after [gtk_statusbar_remove_all] no message of the given context
    id is left on the stack, and calling it again for the same context id
    changes nothing at all: no message goes, no signal is emitted, the
    label and the counters stay. *)
Theorem remove_all_is_idempotent :
  ∀ (sb : GtkStatusbar) (ctx : Z),
    Forall (λ m, context_id m ≠ ctx)
      (messages (gtk_statusbar_remove_all sb ctx))
    ∧ gtk_statusbar_remove_all (gtk_statusbar_remove_all sb ctx) ctx
      = gtk_statusbar_remove_all sb ctx.
Proof.
  intros sb ctx.
  assert (Hnone : Forall (λ m, context_id m ≠ ctx)
                    (messages (gtk_statusbar_remove_all sb ctx))).
  { rewrite remove_all_messages. apply Forall_forall.
    intros m Hm. by apply list_elem_of_filter in Hm as [Hm _]. }
  split; [exact Hnone |].
  revert Hnone. generalize (gtk_statusbar_remove_all sb ctx).
  intros [lbl ms ks sc sm od em] Hnone. cbn [messages] in Hnone.
  unfold gtk_statusbar_remove_all. cbn [messages].
  destruct ms as [|top below]; [reflexivity |].
  apply Forall_cons in Hnone as [Htop Hbelow].
  rewrite (proj2 (Z.eqb_neq _ _) Htop).
  unfold set_messages. cbn.
  by rewrite unlink_all_context_nothing.
Qed.

(** ** The list of keys *)

(** X7: [keys] records exactly the registered context keys. In a state
    reached from a new statusbar by calls that ask for fewer than 2^32
    different descriptions, the list holds one key for each description
    asked for and no key twice, the keys of the object data are the
    members of the list, the key at position [i] holds the id
    [length keys - i], and the counter of context ids is one more than
    the number of keys, taken modulo 2^32: 0 when 2^32 - 1 keys are
    registered, [length keys + 1] otherwise. *)
Theorem keys_list_tracks_registered_ids :
  ∀ cs : list call,
    Z.of_nat (size (descriptions cs)) < GUINT_RANGE →
    let sb := after gtk_statusbar_new cs in
    let n := Z.of_nat (length (keys sb)) in
    NoDup (keys sb)
    ∧ length (keys sb) = size (descriptions cs)
    ∧ (∀ key, key ∈ keys sb ↔ ∃ d, d ∈ descriptions cs ∧ key = context_key d)
    ∧ (∀ key, key ∈ keys sb ↔ is_Some (object_data sb !! key))
    ∧ (∀ (i : nat) key, keys sb !! i = Some key →
         object_data sb !! key = Some (n - Z.of_nat i))
    ∧ seq_context_id sb = guint_wrap (1 + n)
    ∧ (n = GUINT_RANGE - 1 → seq_context_id sb = 0)
    ∧ (n ≠ GUINT_RANGE - 1 → seq_context_id sb = 1 + n).
Proof.
  intros cs Hbound sb n.
  destruct (after_registers cs ∅ gtk_statusbar_new registers_new)
    as [(Hseq & Hlen & Hnum & Hkeys) _].
  { by replace (∅ ∪ descriptions cs) with (descriptions cs) by set_solver. }
  replace (∅ ∪ descriptions cs) with (descriptions cs) in * by set_solver.
  fold sb in Hseq, Hlen, Hnum, Hkeys. rewrite <- Hlen in Hseq. fold n in Hseq.
  split; [by apply keys_numbered_NoDup |].
  split; [exact Hlen |]. split; [exact Hkeys |].
  destruct Hnum as [Hn Hr].
  split; [| split; [exact Hn | split; [exact Hseq | split]]].
  - intros key. split.
    + intros Hin. apply list_elem_of_lookup in Hin as [i Hi].
      rewrite (Hn i key Hi). eauto.
    + intros [v Hv]. eauto.
  - intros Hfull. rewrite Hseq, Hfull. reflexivity.
  - intros Hroom. rewrite Hseq. apply guint_wrap_small.
    subst n. rewrite Hlen in *. lia.
Qed.

Lemma keys_list_tracks_registered_ids_witness :
  let cs := [GET_CONTEXT_ID (Some "net"); PUSH 1 (Some "a");
             GET_CONTEXT_ID (Some "disk"); GET_CONTEXT_ID (Some "net")] in
  Z.of_nat (size (descriptions cs)) < GUINT_RANGE
  ∧ NoDup (keys (after gtk_statusbar_new cs)).
Proof.
  intros cs.
  assert (Hbound : Z.of_nat (size (descriptions cs)) < GUINT_RANGE)
    by (vm_compute; reflexivity).
  split; [exact Hbound |].
  exact (proj1 (keys_list_tracks_registered_ids cs Hbound)).
Defined.

(** ** Contexts and messages do not interfere *)

Lemma after_keeps_context cs : ∀ sb,
  count_calls is_get_context_id cs = 0 →
  seq_context_id (after sb cs) = seq_context_id sb
  ∧ object_data (after sb cs) = object_data sb.
Proof.
  induction cs as [|c cs IH]; intros sb Hcount; simpl in *; [by split |].
  pose proof (count_calls_nonneg is_get_context_id cs) as Hcs.
  destruct (is_get_context_id c) eqn:Hc; [lia |].
  destruct (perform_keeps_context sb c Hc) as [Hs Hd].
  destruct (IH (perform sb c).2) as [Hs' Hd']; [lia |].
  split; congruence.
Qed.

Lemma get_context_id_reads sb1 sb2 d :
  seq_context_id sb1 = seq_context_id sb2 →
  object_data sb1 = object_data sb2 →
  (gtk_statusbar_get_context_id sb1 d).1
  = (gtk_statusbar_get_context_id sb2 d).1.
Proof.
  intros Hs Hd. destruct d as [d|]; [| reflexivity].
  unfold gtk_statusbar_get_context_id. rewrite Hs, Hd.
  by destruct (_ =? 0).
Qed.

(** X8: context ids and messages do not interfere. Asking for a context
    id never changes the stack, the label, the emitted signals or the
    counter of message ids; and no sequence of pushes, pops and removals
    changes the registered ids, so [gtk_statusbar_get_context_id] answers
    a description after it as it would have before. *)
Theorem contexts_and_messages_are_separate :
  (∀ (sb : GtkStatusbar) (d : option string),
     let sb' := (gtk_statusbar_get_context_id sb d).2 in
     messages sb' = messages sb
     ∧ label sb' = label sb
     ∧ emitted sb' = emitted sb
     ∧ seq_message_id sb' = seq_message_id sb)
  ∧ (∀ (sb : GtkStatusbar) (cs : list call) (d : option string),
       count_calls is_get_context_id cs = 0 →
       object_data (after sb cs) = object_data sb
       ∧ (gtk_statusbar_get_context_id (after sb cs) d).1
         = (gtk_statusbar_get_context_id sb d).1).
Proof.
  split.
  - intros sb [d|] sb'; subst sb'; [| by repeat split].
    unfold gtk_statusbar_get_context_id.
    by destruct (_ =? 0).
  - intros sb cs d Hcount.
    destruct (after_keeps_context cs sb Hcount) as [Hs Hd].
    split; [exact Hd |]. by apply get_context_id_reads.
Qed.

(** ** The label and the signals *)

Lemma perform_label_follows_emission sb c :
  label sb = last_emitted_text (emitted sb) →
  label (perform sb c).2 = last_emitted_text (emitted (perform sb c).2).
Proof.
  intros Hsb.
  assert (Hpop : ∀ s ctx, label (gtk_statusbar_pop s ctx)
                 = last_emitted_text (emitted (gtk_statusbar_pop s ctx))).
  { intros s ctx. rewrite pop_label, pop_emitted.
    by destruct (unlink_first_context ctx (messages s)). }
  destruct c as [d | ctx txt | ctx | ctx mid | ctx]; simpl.
  - destruct d as [d|]; simpl; [| assumption].
    unfold gtk_statusbar_get_context_id. by destruct (_ =? 0).
  - destruct txt; [reflexivity | assumption].
  - apply Hpop.
  - unfold gtk_statusbar_remove. destruct (negb (0 <? mid)); [assumption |].
    destruct (messages sb) as [|top rest]; [assumption |].
    destruct ((context_id top =? ctx) && (message_id top =? mid));
      [apply Hpop | assumption].
  - unfold gtk_statusbar_remove_all.
    destruct (messages sb) as [|top below]; [assumption |].
    destruct (context_id top =? ctx); [apply Hpop | assumption].
Qed.

(** X9: whatever calls were made on a statusbar since its creation, the
    label shows the text carried by the most recently emitted signal, a
    NULL text as the empty string; before the first emission it is
    empty. *)
Theorem label_shows_last_emitted_text :
  ∀ cs : list call,
    label (after gtk_statusbar_new cs)
    = last_emitted_text (emitted (after gtk_statusbar_new cs)).
Proof.
  intros cs.
  assert (Hgen : ∀ sb, label sb = last_emitted_text (emitted sb) →
            label (after sb cs) = last_emitted_text (emitted (after sb cs))).
  { induction cs as [|c cs IH]; intros sb Hsb; simpl; [assumption |].
    by apply IH, perform_label_follows_emission. }
  by apply Hgen.
Qed.

(** ** Order and range of the ids *)

(** X10: the stack is ordered by age. In a state reached from a new
    statusbar with fewer than 2^32 pushes, every message on the stack has
    a message id between 1 and the number of pushes made, and of any two
    messages on the stack the one nearer the top has the greater message
    id, that is, it was pushed later. *)
Theorem stack_is_ordered_by_age :
  ∀ cs : list call,
    count_calls is_push cs < GUINT_RANGE →
    let ms := messages (after gtk_statusbar_new cs) in
    (∀ (i : nat) (m : GtkStatusbarMsg),
       ms !! i = Some m → 1 ≤ message_id m ≤ count_calls is_push cs)
    ∧ (∀ (i j : nat) (mi mj : GtkStatusbarMsg),
         (i < j)%nat → ms !! i = Some mi → ms !! j = Some mj →
         message_id mj < message_id mi).
Proof.
  intros cs Hbound.
  pose proof (count_calls_nonneg is_push cs) as Hcs.
  destruct (after_message_ids_upto cs 0 gtk_statusbar_new)
    as (_ & Hrange & Hsorted);
    [lia | lia | apply new_message_ids_upto |].
  revert Hrange Hsorted.
  generalize (messages (after gtk_statusbar_new cs)).
  intros ms Hrange Hsorted. cbv zeta. split.
  - intros i m Hi. rewrite Forall_forall in Hrange.
    assert (Hin : m ∈ ms) by (apply list_elem_of_lookup; eauto).
    specialize (Hrange m Hin). simpl in Hrange. lia.
  - intros i j mi mj Hij Hi Hj.
    rewrite <- (take_drop_middle ms i mi Hi) in Hsorted, Hj.
    apply StronglySorted_app_1_r, StronglySorted_cons in Hsorted as [Hlt _].
    rewrite Forall_forall in Hlt. apply Hlt.
    apply list_elem_of_lookup. exists (j - S i)%nat.
    pose proof (lookup_lt_Some _ _ _ Hi) as Hilen.
    rewrite lookup_app_r in Hj by (rewrite length_take; lia).
    rewrite length_take in Hj.
    replace (j - i `min` length ms)%nat with (S (j - S i)) in Hj by lia.
    exact Hj.
Qed.

Lemma stack_is_ordered_by_age_witness :
  let cs := [PUSH 1 (Some "a"); PUSH 2 (Some "b"); PUSH 1 (Some "c"); POP 2] in
  count_calls is_push cs < GUINT_RANGE
  ∧ messages (after gtk_statusbar_new cs) = [Msg "c" 1 3; Msg "a" 1 1]
  ∧ 1 ≤ message_id (Msg "a" 1 1) ≤ count_calls is_push cs.
Proof.
  intros cs.
  assert (Hbound : count_calls is_push cs < GUINT_RANGE) by reflexivity.
  split; [exact Hbound |]. split; [reflexivity |].
  exact (proj1 (stack_is_ordered_by_age cs Hbound) 1%nat (Msg "a" 1 1)
           eq_refl).
Defined.

Lemma guint_wrap_range z : 0 ≤ guint_wrap z < GUINT_RANGE.
Proof. unfold guint_wrap, GUINT_RANGE. apply Z.mod_pos_bound. lia. Qed.

Lemma perform_guint_valued sb c : guint_valued sb → guint_valued (perform sb c).2.
Proof.
  intros (Hsc & Hsm & Hms & Hdata).
  destruct (is_get_context_id c) eqn:Hget.
  - destruct c as [[d|] | | | |]; try discriminate. simpl.
    unfold gtk_statusbar_get_context_id.
    destruct (_ =? 0); [| cbn [snd]; unfold guint_valued; tauto].
    cbn [snd]. split; [apply guint_wrap_range |].
    split; [assumption |]. split; [assumption |].
    cbn [object_data]. intros key v. unfold g_object_set_data_full.
    destruct (seq_context_id sb =? 0).
    + intros Hkv. destruct (decide (context_key d = key)) as [<- | Hne].
      * by rewrite lookup_delete_eq in Hkv.
      * rewrite lookup_delete_ne in Hkv by assumption. eauto.
    + intros Hkv. destruct (decide (context_key d = key)) as [<- | Hne].
      * rewrite lookup_insert_eq in Hkv. by injection Hkv as <-.
      * rewrite lookup_insert_ne in Hkv by assumption. eauto.
  - destruct (perform_keeps_context sb c Hget) as [Hs Hd].
    split; [by rewrite Hs |].
    split; [rewrite perform_seq_message_id; destruct (is_push c);
            [apply guint_wrap_range | assumption] |].
    split; [| by rewrite Hd].
    destruct (is_push c) eqn:Hpush.
    + destruct c as [| ctx [t|] | | |]; try discriminate.
      change (perform sb (PUSH ctx (Some t))) with (gtk_statusbar_push sb ctx (Some t)).
      rewrite push_messages. by constructor.
    + eapply Forall_of_sublist; [by apply perform_messages_sublist | assumption].
Qed.

(** X11: the counters never leave the range of a [guint]. In every state
    reached from a new statusbar, after any number of calls, both
    counters, every message id on the stack and every registered context
    id lie in 0 .. 2^32 - 1. *)
Theorem ids_stay_within_guint :
  ∀ cs : list call,
    let sb := after gtk_statusbar_new cs in
    0 ≤ seq_context_id sb < GUINT_RANGE
    ∧ 0 ≤ seq_message_id sb < GUINT_RANGE
    ∧ Forall (λ m, 0 ≤ message_id m < GUINT_RANGE) (messages sb)
    ∧ (∀ key v, object_data sb !! key = Some v → 0 ≤ v < GUINT_RANGE).
Proof.
  intros cs sb. subst sb.
  assert (Hgen : ∀ sb, guint_valued sb → guint_valued (after sb cs)).
  { induction cs as [|c cs IH]; intros sb Hsb; simpl; [assumption |].
    by apply IH, perform_guint_valued. }
  apply Hgen. unfold guint_valued, GUINT_RANGE. simpl.
  split; [lia |]. split; [lia |]. split; [constructor |].
  intros key v Hkv. rewrite lookup_empty in Hkv. discriminate.
Qed.

(** ** What a client sees of single calls *)

(** X18: a pop for a context id other than that of the topmost message
    does not change what is displayed: the topmost message stays, the
    label shows its text, and the text-popped signal that is emitted all
    the same carries that message. *)
Theorem pop_below_the_top_keeps_display :
  ∀ (sb : GtkStatusbar) (ctx : Z) (top : GtkStatusbarMsg)
    (rest : list GtkStatusbarMsg),
    messages sb = top :: rest →
    context_id top ≠ ctx →
    let sb' := gtk_statusbar_pop sb ctx in
    messages sb' = top :: unlink_first_context ctx rest
    ∧ label sb' = text top
    ∧ emitted sb'
      = TEXT_POPPED (context_id top) (Some (text top)) :: emitted sb.
Proof.
  intros sb ctx top rest Hms Hne sb'. subst sb'.
  rewrite pop_messages, pop_label, pop_emitted, Hms. simpl.
  by rewrite (proj2 (Z.eqb_neq _ _) Hne).
Qed.

Lemma pop_below_the_top_keeps_display_witness :
  let sb := Statusbar "b" [Msg "b" 2 2; Msg "a" 1 1] [] 3 3 ∅ [] in
  messages sb = Msg "b" 2 2 :: [Msg "a" 1 1]
  ∧ context_id (Msg "b" 2 2) ≠ 1
  ∧ label (gtk_statusbar_pop sb 1) = "b"
  ∧ messages (gtk_statusbar_pop sb 1) = [Msg "b" 2 2].
Proof.
  intros sb.
  assert (Hms : messages sb = Msg "b" 2 2 :: [Msg "a" 1 1]) by reflexivity.
  assert (Hne : context_id (Msg "b" 2 2) ≠ 1) by (simpl; lia).
  split; [exact Hms |]. split; [exact Hne |].
  destruct (pop_below_the_top_keeps_display sb 1 _ _ Hms Hne) as (Hm & Hl & _).
  split; [exact Hl | exact Hm].
Defined.

(** The calls that fail their argument check do nothing. A push of
    a NULL text and a request for the context id of a NULL description
    return 0, and a removal with message id 0 returns; none of them
    changes the state or emits a signal. A push that is accepted emits
    text-pushed once, with its context id and text, and returns the id
    stored in the new topmost message. *)
Theorem refused_calls_change_nothing :
  ∀ (sb : GtkStatusbar) (ctx : Z) (txt : string),
    gtk_statusbar_push sb ctx None = (0, sb)
    ∧ gtk_statusbar_get_context_id sb None = (0, sb)
    ∧ gtk_statusbar_remove sb ctx 0 = sb
    ∧ emitted (gtk_statusbar_push sb ctx (Some txt)).2
      = TEXT_PUSHED ctx (Some txt) :: emitted sb
    ∧ message_id <$> head (messages (gtk_statusbar_push sb ctx (Some txt)).2)
      = Some (gtk_statusbar_push sb ctx (Some txt)).1.
Proof. intros sb ctx txt. by repeat split. Qed.

Lemma get_context_id_unset sb d :
  g_object_get_data (object_data sb) (context_key d) = 0 →
  (gtk_statusbar_get_context_id sb (Some d)).1 = seq_context_id sb
  ∧ object_data (gtk_statusbar_get_context_id sb (Some d)).2
    = g_object_set_data_full (object_data sb) (context_key d)
        (seq_context_id sb).
Proof.
  intros Hget. unfold gtk_statusbar_get_context_id. rewrite Hget. by split.
Qed.

(** X19: in any state, a context id that is not 0 is final: once
    [gtk_statusbar_get_context_id] has answered a description with a
    nonzero id, asking again returns the same id and changes nothing. *)
Theorem nonzero_context_id_is_final :
  ∀ (sb : GtkStatusbar) (d : string),
    let first := gtk_statusbar_get_context_id sb (Some d) in
    first.1 ≠ 0 →
    gtk_statusbar_get_context_id first.2 (Some d) = (first.1, first.2).
Proof.
  intros sb d first Hid. subst first.
  apply get_context_id_known; [| assumption].
  destruct (Z.eq_dec (g_object_get_data (object_data sb) (context_key d)) 0)
    as [Hunset | Hset].
  - destruct (get_context_id_unset sb d Hunset) as [Hfst Hdata].
    rewrite Hfst in *. rewrite Hdata. unfold g_object_set_data_full.
    rewrite (proj2 (Z.eqb_neq _ _) Hid). apply lookup_insert_eq.
  - unfold g_object_get_data in Hset.
    destruct (object_data sb !! context_key d) as [v|] eqn:Hlook;
      [| contradiction].
    cbn [default] in Hset.
    rewrite (get_context_id_known sb d v Hlook Hset). exact Hlook.
Qed.

Lemma nonzero_context_id_is_final_witness :
  let sb := gtk_statusbar_new in
  (gtk_statusbar_get_context_id sb (Some "net")).1 ≠ 0
  ∧ (gtk_statusbar_get_context_id
       (gtk_statusbar_get_context_id sb (Some "net")).2 (Some "net")).1
    = (gtk_statusbar_get_context_id sb (Some "net")).1.
Proof.
  intros sb.
  assert (Hid : (gtk_statusbar_get_context_id sb (Some "net")).1 ≠ 0)
    by (vm_compute; discriminate).
  split; [exact Hid |].
  exact (f_equal fst (nonzero_context_id_is_final sb "net" Hid)).
Defined.

End StatusbarMore.

(** * Further properties of the colour scale *)

Module ColorScaleMore.
Import ColorScale ColorScaleTheory.

(** ** Lists of chunks of one length *)

Lemma length_mjoin_uniform {A} (c : nat) (ls : list (list A)) :
  Forall (λ l, length l = c) ls →
  length (mjoin ls) = (length ls * c)%nat.
Proof.
  induction 1 as [|l ls Hl _ IH]; [reflexivity |].
  change (mjoin (l :: ls)) with (l ++ mjoin ls).
  rewrite length_app, Hl, IH. simpl. lia.
Qed.

Lemma lookup_mjoin_uniform {A} (c : nat) (ls : list (list A)) :
  Forall (λ l, length l = c) ls →
  ∀ (i j : nat) (l : list A),
    ls !! i = Some l → (j < c)%nat →
    mjoin ls !! (i * c + j)%nat = l !! j.
Proof.
  induction 1 as [|l0 ls Hl0 _ IH]; intros i j l Hi Hj; [discriminate |].
  change (mjoin (l0 :: ls)) with (l0 ++ mjoin ls).
  destruct i as [|i].
  - injection Hi as <-. simpl. rewrite lookup_app_l by lia. reflexivity.
  - cbn in Hi. rewrite lookup_app_r by (rewrite Hl0; simpl; lia).
    rewrite Hl0. replace (S i * c + j - c)%nat with (i * c + j)%nat by (simpl; lia).
    by apply IH.
Qed.

Lemma Forall_mjoin {A} (P : A → Prop) (ls : list (list A)) :
  Forall (Forall P) ls → Forall P (mjoin ls).
Proof.
  induction 1 as [|l ls Hl _ IH]; [constructor |].
  change (mjoin (l :: ls)) with (l ++ mjoin ls). apply Forall_app. by split.
Qed.

Lemma guchar_of_gdouble_range v : 0 ≤ guchar_of_gdouble v < 256.
Proof.
  unfold guchar_of_gdouble.
  destruct (Prim2SF v); try lia. apply Z.mod_pos_bound. lia.
Qed.

Section Trough.

Variable gtk_hsv_to_rgb : float → float → float → float * float * float.

Lemma length_hue_pixel h : length (hue_pixel gtk_hsv_to_rgb h) = 3%nat.
Proof. unfold hue_pixel. by destruct (gtk_hsv_to_rgb h 1 1) as [[r g] b]. Qed.

Lemma hue_pixel_bytes h :
  Forall (λ b, 0 ≤ b < 256) (hue_pixel gtk_hsv_to_rgb h).
Proof.
  unfold hue_pixel. destruct (gtk_hsv_to_rgb h 1 1) as [[r g] b].
  repeat constructor; apply guchar_of_gdouble_range.
Qed.

Lemma hue_columns_width width :
  0 ≤ width → length (hue_columns (width * 3)) = Z.to_nat width.
Proof.
  intros Hw. unfold hue_columns. rewrite length_fmap, length_seqZ.
  f_equal. rewrite Z.div_add_l by lia. change (2 / 3) with 0. lia.
Qed.

Lemma hue_row_pixels width f hue_y :
  0 ≤ width →
  hue_row gtk_hsv_to_rgb (width * 3) f hue_y
  = mjoin (replicate (Z.to_nat width)
             (hue_pixel gtk_hsv_to_rgb
                (CLAMP (PrimFloat.mul (gdouble_of_int hue_y) f) 0 1))).
Proof.
  intros Hw. unfold hue_row. f_equal.
  rewrite <- (hue_columns_width width Hw).
  generalize (hue_columns (width * 3)). intros l.
  induction l as [|a l IH]; [reflexivity |]. simpl. by rewrite <- IH.
Qed.

Lemma length_hue_row width f hue_y :
  0 ≤ width →
  length (hue_row gtk_hsv_to_rgb (width * 3) f hue_y)
  = (Z.to_nat width * 3)%nat.
Proof.
  intros Hw. rewrite hue_row_pixels by assumption.
  rewrite (length_mjoin_uniform 3).
  - by rewrite length_replicate.
  - apply Forall_replicate, length_hue_pixel.
Qed.

Lemma length_hue_data width height f :
  0 ≤ width → 0 ≤ height →
  length (hue_data gtk_hsv_to_rgb (width * 3) height f)
  = Z.to_nat (width * height * 3).
Proof.
  intros Hw Hh. unfold hue_data.
  rewrite (length_mjoin_uniform (Z.to_nat width * 3)).
  - rewrite length_fmap, length_seqZ. nia.
  - apply Forall_fmap, Forall_forall. intros hue_y _. simpl.
    by apply length_hue_row.
Qed.

Lemma hue_data_bytes stride height f :
  Forall (λ b, 0 ≤ b < 256) (hue_data gtk_hsv_to_rgb stride height f).
Proof.
  unfold hue_data. apply Forall_mjoin, Forall_fmap, Forall_forall.
  intros hue_y _. simpl. unfold hue_row.
  apply Forall_mjoin, Forall_fmap, Forall_forall.
  intros hue_x _. simpl. apply hue_pixel_bytes.
Qed.

Lemma hue_data_lookup width height f (row col : Z) (k : nat) :
  0 ≤ row < height → 0 ≤ col < width → (k < 3)%nat →
  hue_data gtk_hsv_to_rgb (width * 3) height f
    !! Z.to_nat (row * (width * 3) + 3 * col + Z.of_nat k)
  = hue_pixel gtk_hsv_to_rgb
      (CLAMP (PrimFloat.mul (gdouble_of_int row) f) 0 1) !! k.
Proof.
  intros Hrow Hcol Hk. unfold hue_data.
  replace (Z.to_nat (row * (width * 3) + 3 * col + Z.of_nat k))
    with (Z.to_nat row * (Z.to_nat width * 3) + (Z.to_nat col * 3 + k))%nat
    by nia.
  assert (Hrows : Forall (λ l, length l = (Z.to_nat width * 3)%nat)
                    (hue_row gtk_hsv_to_rgb (width * 3) f <$> seqZ 0 height)).
  { apply Forall_fmap, Forall_forall. intros hue_y _. simpl.
    apply length_hue_row. lia. }
  rewrite (lookup_mjoin_uniform _ _ Hrows (Z.to_nat row) (Z.to_nat col * 3 + k)
             (hue_row gtk_hsv_to_rgb (width * 3) f row)).
  - rewrite hue_row_pixels by lia.
    apply (lookup_mjoin_uniform 3).
    + apply Forall_replicate, length_hue_pixel.
    + apply lookup_replicate_2. lia.
    + assumption.
  - rewrite list_lookup_fmap, lookup_seqZ_lt by lia. simpl.
    do 2 f_equal. lia.
  - nia.
Qed.

Lemma snapshot_trough_hue_fits snapshot x y width height :
  1 < width → 1 < height → width * height * 3 ≤ G_MAXINT →
  snapshot_trough_hue gtk_hsv_to_rgb snapshot x y width height
  = Done (snapshot
          ++ [texture_node
                (Texture width height GDK_MEMORY_R8G8B8
                   (hue_data gtk_hsv_to_rgb (width * 3) height
                      (PrimFloat.div 1 (gdouble_of_int (height - 1))))
                   (width * 3))
                (GRAPHENE_RECT_INIT x y width height)]).
Proof.
  intros Hw Hh Hfit. unfold snapshot_trough_hue.
  repeat (rewrite gint_in_range by (unfold G_MININT, G_MAXINT in *; nia);
          cbn [mbind outcome_bind]).
  rewrite gdouble_div_int_nonzero by lia. reflexivity.
Qed.

Lemma snapshot_trough_hue_overflows snapshot x y width height :
  1 < width → 1 < height → G_MAXINT < width * height * 3 →
  snapshot_trough_hue gtk_hsv_to_rgb snapshot x y width height
  = Fault SIGNED_OVERFLOW.
Proof.
  intros Hw Hh Hbig. unfold snapshot_trough_hue.
  destruct (gint_cases (width * 3)) as [-> | ->]; [| reflexivity].
  cbn [mbind outcome_bind].
  destruct (gint_cases (width * height)) as [-> | ->]; [| reflexivity].
  cbn [mbind outcome_bind].
  rewrite (gint_out_of_range (width * height * 3)) by lia. reflexivity.
Qed.

(** X13: for a hue scale and a trough more than one pixel wide and high
    whose byte count [width * height * 3] fits an [int], the call appends
    exactly one node: a texture of [width] by [height] pixels in the
    R8G8B8 format with a stride of [3 * width] over the rectangle of the
    trough, holding [width * height * 3] bytes, each in 0 .. 255. When
    the byte count does not fit, the [int] arithmetic of the call is
    undefined. *)
Theorem hue_trough_is_one_texture :
  ∀ (scale : GtkColorScale) (snapshot : GtkSnapshot) (x y width height : Z),
    type scale = GTK_COLOR_SCALE_HUE →
    1 < width →
    1 < height →
    let result :=
      gtk_color_scale_snapshot_trough gtk_hsv_to_rgb scale snapshot
        x y width height in
    (width * height * 3 ≤ G_MAXINT →
     ∃ data,
       result
       = Done (snapshot
               ++ [texture_node
                     (Texture width height GDK_MEMORY_R8G8B8 data (3 * width))
                     (GRAPHENE_RECT_INIT x y width height)])
       ∧ length data = Z.to_nat (width * height * 3)
       ∧ Forall (λ b, 0 ≤ b < 256) data)
    ∧ (G_MAXINT < width * height * 3 → result = Fault SIGNED_OVERFLOW).
Proof.
  intros scale snapshot x y width height Htype Hw Hh result. subst result.
  unfold gtk_color_scale_snapshot_trough.
  rewrite guard_passed by lia. rewrite Htype. split.
  - intros Hfit. rewrite snapshot_trough_hue_fits by assumption.
    eexists. split; [by rewrite (Z.mul_comm 3 width) |].
    split; [apply length_hue_data; lia | apply hue_data_bytes].
  - intros Hbig. by apply snapshot_trough_hue_overflows.
Qed.

(** X14: in the texture of the hue trough all pixels of a row have the
    same three bytes: the pixel in row [row] and column [col] starts at
    byte [row * stride + 3 * col] and holds what the inner loop makes of
    [gtk_hsv_to_rgb] at the hue of that row, which is
    [CLAMP (row * f, 0, 1)] for the step [f = 1.0 / (height - 1)], at
    saturation and value 1. *)
Theorem hue_trough_rows_are_uniform :
  ∀ (scale : GtkColorScale) (snapshot : GtkSnapshot) (x y width height : Z),
    type scale = GTK_COLOR_SCALE_HUE →
    1 < width →
    1 < height →
    width * height * 3 ≤ G_MAXINT →
    ∃ texture bounds,
      gtk_color_scale_snapshot_trough gtk_hsv_to_rgb scale snapshot
        x y width height
      = Done (snapshot ++ [texture_node texture bounds])
      ∧ ∀ (row col : Z) (k : nat),
          0 ≤ row < height → 0 ≤ col < width → (k < 3)%nat →
          texture_bytes texture
            !! Z.to_nat (row * texture_stride texture + 3 * col + Z.of_nat k)
          = hue_pixel gtk_hsv_to_rgb (row_hue height row) !! k.
Proof.
  intros scale snapshot x y width height Htype Hw Hh Hfit.
  unfold gtk_color_scale_snapshot_trough.
  rewrite guard_passed by lia. rewrite Htype.
  rewrite snapshot_trough_hue_fits by assumption.
  eexists _, _. split; [reflexivity |].
  intros row col k Hrow Hcol Hk. cbn [texture_bytes texture_stride].
  by apply hue_data_lookup.
Qed.

(** X15: a call never drops or reorders what the snapshot holds: when it
    completes, the snapshot it returns is the one it got followed by the
    nodes it appended, none when [width <= 1] or [height <= 1], else one
    texture node for a hue scale and a cairo node followed by a linear
    gradient node for an alpha scale. *)
Theorem trough_only_appends :
  ∀ (scale : GtkColorScale) (snapshot snapshot' : GtkSnapshot)
    (x y width height : Z),
    gtk_color_scale_snapshot_trough gtk_hsv_to_rgb scale snapshot
      x y width height = Done snapshot' →
    ∃ nodes,
      snapshot' = snapshot ++ nodes
      ∧ (width ≤ 1 ∨ height ≤ 1 → nodes = [])
      ∧ (¬ (width ≤ 1 ∨ height ≤ 1) → type scale = GTK_COLOR_SCALE_HUE →
         ∃ texture bounds, nodes = [texture_node texture bounds])
      ∧ (¬ (width ≤ 1 ∨ height ≤ 1) → type scale = GTK_COLOR_SCALE_ALPHA →
         ∃ bounds calls start_point end_point stops,
           nodes = [cairo_node bounds calls;
                    linear_gradient_node bounds start_point end_point stops]).
Proof.
  intros scale snapshot snapshot' x y width height.
  unfold gtk_color_scale_snapshot_trough.
  destruct (Z.leb_spec width 1) as [Hw | Hw]; cbn [orb].
  { intros [= <-]. exists []. rewrite app_nil_r. split; [reflexivity |].
    split; [reflexivity |]. split; intros Hnot; exfalso; apply Hnot; by left. }
  destruct (Z.leb_spec height 1) as [Hh | Hh].
  { intros [= <-]. exists []. rewrite app_nil_r. split; [reflexivity |].
    split; [reflexivity |]. split; intros Hnot; exfalso; apply Hnot; by right. }
  destruct (type scale) eqn:Htype.
  - unfold snapshot_trough_hue.
    destruct (gint_cases (width * 3)) as [-> | ->]; [| discriminate].
    cbn [mbind outcome_bind].
    destruct (gint_cases (width * height)) as [-> | ->]; [| discriminate].
    cbn [mbind outcome_bind].
    destruct (gint_cases (width * height * 3)) as [-> | ->]; [| discriminate].
    cbn [mbind outcome_bind].
    destruct (gint_cases (height - 1)) as [-> | ->]; [| discriminate].
    cbn [mbind outcome_bind].
    rewrite gdouble_div_int_nonzero by lia. cbn [mbind outcome_bind].
    intros [= <-]. eexists. split; [reflexivity |].
    split; [intros [? | ?]; lia |].
    split; [intros _ _; by eexists _, _ | intros _ Habs; discriminate].
  - unfold snapshot_trough_alpha.
    destruct (gint_cases (x + width)) as [-> | ->]; [| discriminate].
    cbn [mbind outcome_bind].
    destruct (right_to_left scale); intros [= <-];
      (eexists; split; [reflexivity |]);
      (split; [intros [? | ?]; lia |]);
      (split; [intros _ Habs; discriminate | intros _ _; by eexists _, _, _, _, _]).
Qed.

(** X16: what the trough shows depends on little of the scale. For a hue
    scale it depends on the type alone: the colour set with
    [gtk_color_scale_set_rgba], the orientation and the text direction
    make no difference. For an alpha scale it does not depend on the
    colour conversion, nor on the alpha component of the colour set. *)
Theorem trough_ignores_unrelated_state :
  ∀ (scale scale' : GtkColorScale) (c : GdkRGBA) (a a' : float)
    (other_hsv_to_rgb : float → float → float → float * float * float)
    (snapshot : GtkSnapshot) (x y width height : Z),
    (type scale = GTK_COLOR_SCALE_HUE →
     type scale' = GTK_COLOR_SCALE_HUE →
     gtk_color_scale_snapshot_trough gtk_hsv_to_rgb
       (gtk_color_scale_set_rgba scale c) snapshot x y width height
     = gtk_color_scale_snapshot_trough gtk_hsv_to_rgb scale' snapshot
         x y width height)
    ∧ (type scale = GTK_COLOR_SCALE_ALPHA →
       gtk_color_scale_snapshot_trough gtk_hsv_to_rgb
         (gtk_color_scale_set_rgba scale (RGBA (red c) (green c) (blue c) a))
         snapshot x y width height
       = gtk_color_scale_snapshot_trough other_hsv_to_rgb
           (gtk_color_scale_set_rgba scale (RGBA (red c) (green c) (blue c) a'))
           snapshot x y width height).
Proof.
  intros scale scale' c a a' other snapshot x y width height.
  unfold gtk_color_scale_snapshot_trough. split.
  - intros Htype Htype'. cbn [type gtk_color_scale_set_rgba].
    by rewrite Htype, Htype'.
  - intros Htype. cbn [type gtk_color_scale_set_rgba]. by rewrite Htype.
Qed.

End Trough.

(** ** Exact geometry *)

Lemma gfloat_of_int_exact z :
  - GFLOAT_EXACT ≤ z ≤ GFLOAT_EXACT → gfloat_of_int z = z.
Proof.
  unfold GFLOAT_EXACT. intros Hz.
  destruct (decide (Z.abs z = 2 ^ 24)) as [Heq | Hne].
  - assert (z = 2 ^ 24 ∨ z = - 2 ^ 24) as [-> | ->] by lia; reflexivity.
  - unfold gfloat_of_int.
    assert (Hlog : Z.log2 (Z.abs z) - 23 ≤ 0).
    { destruct (decide (Z.abs z = 0)) as [-> | Hnz]; [simpl; lia |].
      assert (Z.log2 (Z.abs z) < 24); [| lia].
      apply Z.log2_lt_pow2; lia. }
    by rewrite (proj2 (Z.leb_le _ _) Hlog).
Qed.

(** X17: the geometry handed to the snapshot is exact for coordinates up
    to 2^24 in magnitude, the range in which every [int] is a [float]:
    the alpha trough then gets the rectangle [(x, y, width, height)]
    itself for both of its nodes, and its gradient runs between the
    points [(x, y)] and [(x + width, y)] themselves. *)
Theorem alpha_trough_geometry_is_exact :
  ∀ (gtk_hsv_to_rgb : float → float → float → float * float * float)
    (scale : GtkColorScale) (snapshot : GtkSnapshot) (x y width height : Z),
    type scale = GTK_COLOR_SCALE_ALPHA →
    1 < width ≤ GFLOAT_EXACT →
    1 < height ≤ GFLOAT_EXACT →
    - GFLOAT_EXACT ≤ x ≤ GFLOAT_EXACT →
    - GFLOAT_EXACT ≤ y ≤ GFLOAT_EXACT →
    - GFLOAT_EXACT ≤ x + width ≤ GFLOAT_EXACT →
    gtk_color_scale_snapshot_trough gtk_hsv_to_rgb scale snapshot
      x y width height
    = Done (snapshot
            ++ [cairo_node (Rect x y width height)
                  (alpha_background x y width (right_to_left scale));
                linear_gradient_node (Rect x y width height)
                  (if right_to_left scale
                   then Point (x + width) y else Point x y)
                  (if right_to_left scale
                   then Point x y else Point (x + width) y)
                  (alpha_stops (color scale))]).
Proof.
  intros hsv scale snapshot x y width height Htype Hw Hh Hx Hy Hfar.
  unfold gtk_color_scale_snapshot_trough.
  rewrite guard_passed by lia. rewrite Htype.
  unfold snapshot_trough_alpha.
  rewrite gint_in_range
    by (unfold G_MININT, G_MAXINT, GFLOAT_EXACT in *; lia).
  cbn [mbind outcome_bind].
  unfold GRAPHENE_RECT_INIT, graphene_point_init.
  rewrite !gfloat_of_int_exact by (unfold GFLOAT_EXACT in *; lia).
  by destruct (right_to_left scale).
Qed.

Lemma alpha_trough_geometry_is_exact_witness :
  let scale := ColorScale (RGBA 1 0 0 1) GTK_COLOR_SCALE_ALPHA
                 GTK_ORIENTATION_HORIZONTAL GTK_TEXT_DIR_LTR false in
  type scale = GTK_COLOR_SCALE_ALPHA
  ∧ 1 < 300 ≤ GFLOAT_EXACT
  ∧ 1 < 12 ≤ GFLOAT_EXACT
  ∧ - GFLOAT_EXACT ≤ 8 ≤ GFLOAT_EXACT
  ∧ - GFLOAT_EXACT ≤ 4 ≤ GFLOAT_EXACT
  ∧ - GFLOAT_EXACT ≤ 8 + 300 ≤ GFLOAT_EXACT
  ∧ gtk_color_scale_snapshot_trough (λ h s v, (v, v, v)) scale [] 8 4 300 12
    = Done [cairo_node (Rect 8 4 300 12) (alpha_background 8 4 300 false);
            linear_gradient_node (Rect 8 4 300 12) (Point 8 4) (Point 308 4)
              (alpha_stops (RGBA 1 0 0 1))].
Proof.
  intros scale.
  assert (Htype : type scale = GTK_COLOR_SCALE_ALPHA) by reflexivity.
  assert (Hw : 1 < 300 ≤ GFLOAT_EXACT) by (unfold GFLOAT_EXACT; lia).
  assert (Hh : 1 < 12 ≤ GFLOAT_EXACT) by (unfold GFLOAT_EXACT; lia).
  assert (Hx : - GFLOAT_EXACT ≤ 8 ≤ GFLOAT_EXACT) by (unfold GFLOAT_EXACT; lia).
  assert (Hy : - GFLOAT_EXACT ≤ 4 ≤ GFLOAT_EXACT) by (unfold GFLOAT_EXACT; lia).
  assert (Hfar : - GFLOAT_EXACT ≤ 8 + 300 ≤ GFLOAT_EXACT)
    by (unfold GFLOAT_EXACT; lia).
  split; [exact Htype |]. split; [exact Hw |]. split; [exact Hh |].
  split; [exact Hx |]. split; [exact Hy |]. split; [exact Hfar |].
  exact (alpha_trough_geometry_is_exact (λ h s v, (v, v, v)) scale [] 8 4 300 12
           Htype Hw Hh Hx Hy Hfar).
Defined.

Lemma hue_trough_is_one_texture_witness :
  let scale := ColorScale (RGBA 0 0 0 1) GTK_COLOR_SCALE_HUE
                 GTK_ORIENTATION_VERTICAL GTK_TEXT_DIR_LTR false in
  type scale = GTK_COLOR_SCALE_HUE
  ∧ 1 < 16 ∧ 1 < 200
  ∧ 16 * 200 * 3 ≤ G_MAXINT
  ∧ ∃ data,
      gtk_color_scale_snapshot_trough (λ h s v, (h, s, v)) scale [] 0 0 16 200
      = Done [texture_node (Texture 16 200 GDK_MEMORY_R8G8B8 data (3 * 16))
                (GRAPHENE_RECT_INIT 0 0 16 200)]
      ∧ length data = Z.to_nat (16 * 200 * 3).
Proof.
  intros scale.
  assert (Htype : type scale = GTK_COLOR_SCALE_HUE) by reflexivity.
  assert (Hw : 1 < 16) by lia.
  assert (Hh : 1 < 200) by lia.
  assert (Hfit : 16 * 200 * 3 ≤ G_MAXINT) by (unfold G_MAXINT; lia).
  split; [exact Htype |]. split; [exact Hw |]. split; [exact Hh |].
  split; [exact Hfit |].
  destruct (proj1 (hue_trough_is_one_texture (λ h s v, (h, s, v)) scale []
                     0 0 16 200 Htype Hw Hh) Hfit)
    as (data & Heq & Hlen & _).
  exists data. split; [exact Heq | exact Hlen].
Defined.

Lemma hue_trough_rows_are_uniform_witness :
  let scale := ColorScale (RGBA 0 0 0 1) GTK_COLOR_SCALE_HUE
                 GTK_ORIENTATION_VERTICAL GTK_TEXT_DIR_LTR false in
  type scale = GTK_COLOR_SCALE_HUE
  ∧ 1 < 2 ∧ 1 < 3
  ∧ 2 * 3 * 3 ≤ G_MAXINT
  ∧ ∃ texture bounds,
      gtk_color_scale_snapshot_trough (λ h s v, (h, h, h)) scale [] 0 0 2 3
      = Done [texture_node texture bounds]
      ∧ texture_bytes texture
          !! Z.to_nat (1 * texture_stride texture + 3 * 1 + Z.of_nat 2)
        = hue_pixel (λ h s v, (h, h, h)) (row_hue 3 1) !! 2%nat.
Proof.
  intros scale.
  assert (Htype : type scale = GTK_COLOR_SCALE_HUE) by reflexivity.
  assert (Hw : 1 < 2) by lia.
  assert (Hh : 1 < 3) by lia.
  assert (Hfit : 2 * 3 * 3 ≤ G_MAXINT) by (unfold G_MAXINT; lia).
  split; [exact Htype |]. split; [exact Hw |]. split; [exact Hh |].
  split; [exact Hfit |].
  destruct (hue_trough_rows_are_uniform (λ h s v, (h, h, h)) scale []
              0 0 2 3 Htype Hw Hh Hfit)
    as (texture & bounds & Heq & Hpix).
  exists texture, bounds. split; [exact Heq |].
  apply Hpix; lia.
Defined.

Lemma trough_only_appends_witness :
  let scale := ColorScale (RGBA 1 0 0 1) GTK_COLOR_SCALE_ALPHA
                 GTK_ORIENTATION_HORIZONTAL GTK_TEXT_DIR_LTR false in
  let old := [cairo_node (Rect 0 0 1 1) []] in
  ∃ snapshot',
    gtk_color_scale_snapshot_trough (λ h s v, (v, v, v)) scale old 8 4 300 12
    = Done snapshot'
    ∧ ∃ nodes, snapshot' = old ++ nodes.
Proof.
  intros scale old.
  eexists. split; [reflexivity |].
  destruct (trough_only_appends (λ h s v, (v, v, v)) scale old _ 8 4 300 12
              eq_refl) as (nodes & Heq & _).
  exists nodes. exact Heq.
Defined.

End ColorScaleMore.

(** * The hues of the hue trough *)

Module ColorScaleHue.
Import ColorScale ColorScaleTheory ColorScaleMore.

(** ** Rounding in IEEE 754 double arithmetic

    The step [1.0 / (height - 1)] and the products [hue_y * f] are
    rounded; what is needed of them is that they are finite and not
    negative, which follows from the sizes of the mantissas and exponents
    that enter the rounding. *)

Lemma iter_pos_invariant {A} (P : A → Prop) (f : A → A) :
  (∀ x, P x → P (f x)) → ∀ p x, P x → P (SpecFloat.iter_pos f p x).
Proof.
  intros Hf. induction p as [p IH | p IH |]; intros x Hx; simpl; auto.
Qed.

Lemma shr_1_bounds (M : Z) mrs :
  0 ≤ shr_m mrs ≤ M → 0 ≤ shr_m (shr_1 mrs) ≤ M.
Proof.
  destruct mrs as [m r s]. simpl.
  destruct m as [|[p|p|]|[p|p|]]; simpl; lia.
Qed.

Lemma shr_bounds mrs e n :
  0 ≤ shr_m mrs →
  0 ≤ shr_m (shr mrs e n).1 ≤ shr_m mrs
  ∧ ((shr mrs e n).2 = e ∨ (0 < n ∧ (shr mrs e n).2 = e + n)).
Proof.
  intros Hm. destruct n as [|p|p]; simpl; [split; [lia | by left] | | split; [lia | by left]].
  split; [| right; split; [lia | reflexivity]].
  apply (iter_pos_invariant (λ x : shr_record, 0 ≤ shr_m x ≤ shr_m mrs)); [| lia].
  intros x. apply shr_1_bounds.
Qed.

Lemma shr_m_of_loc m l : shr_m (shr_record_of_loc m l) = m.
Proof. by destruct l as [|[]]. Qed.

Lemma round_nearest_even_bounds m l :
  0 ≤ m → 0 ≤ round_nearest_even m l ≤ m + 1.
Proof.
  intros Hm. destruct l as [|[]]; simpl; try lia. destruct (Z.even m); lia.
Qed.

Lemma digits2_pos_size p : digits2_pos p = Pos.size p.
Proof. induction p as [p IH | p IH |]; simpl; by rewrite ?IH. Qed.

Lemma Zdigits2_bound m D :
  0 ≤ D → 0 ≤ m < 2 ^ D → 0 ≤ Zdigits2 m ≤ D.
Proof.
  intros HD [Hlo Hhi]. destruct m as [|p|p]; simpl; [lia | | lia].
  split; [lia |]. rewrite digits2_pos_size.
  pose proof (Pos.size_le p) as Hsize.
  assert (H2 : 2 ^ Z.pos (Pos.size p) ≤ 2 * Z.pos p).
  { change (2 * Z.pos p) with (Z.pos p~0).
    rewrite <- Pos2Z.inj_pow. by apply Pos2Z.pos_le_pos. }
  destruct (Z.le_gt_cases (Z.pos (Pos.size p)) D) as [? | Hgt]; [assumption |].
  assert (2 ^ (D + 1) ≤ 2 ^ Z.pos (Pos.size p)) by (apply Z.pow_le_mono_r; lia).
  rewrite Z.pow_add_r in * by lia. lia.
Qed.


Lemma binary_round_aux_class sx mx ex lx E :
  0 ≤ mx < 2 ^ 106 → ex ≤ E → 0 ≤ E ≤ 864 →
  finite_below sx (E + 107) (binary_round_aux prec emax sx mx ex lx).
Proof.
  intros [Hlo Hhi] Hex [HE0 HE]. unfold binary_round_aux, shr_fexp.
  pose proof (Zdigits2_bound mx 106 ltac:(lia) ltac:(lia)) as Hd.
  pose proof (shr_bounds (shr_record_of_loc mx lx) ex
                (fexp prec emax (Zdigits2 mx + ex) - ex)) as H1.
  rewrite shr_m_of_loc in H1. specialize (H1 Hlo).
  destruct (shr _ ex _) as [mrs' e']. simpl in H1. destruct H1 as [Hm' He'].
  assert (He'53 : e' ≤ E + 53).
  { unfold fexp, emin, prec, emax in He'. lia. }
  pose proof (round_nearest_even_bounds (shr_m mrs') (loc_of_shr_record mrs')
                ltac:(lia)) as Hm1.
  set (m1 := round_nearest_even _ _) in *.
  assert (Hd1 : 0 ≤ Zdigits2 m1 ≤ 107).
  { apply Zdigits2_bound; [lia |]. change (2 ^ 107) with (2 * 2 ^ 106). lia. }
  pose proof (shr_bounds (shr_record_of_loc m1 loc_Exact) e'
                (fexp prec emax (Zdigits2 m1 + e') - e')) as H2.
  rewrite shr_m_of_loc in H2. specialize (H2 ltac:(lia)).
  destruct (shr _ e' _) as [mrs'' e'']. simpl in H2. destruct H2 as [Hm'' He''].
  assert (Hle : e'' ≤ E + 107).
  { unfold fexp, emin, prec, emax in *. lia. }
  destruct (shr_m mrs'') as [|p|p] eqn:Hp; [by left | | lia].
  rewrite (proj2 (Z.leb_le e'' (emax - prec))) by (unfold prec, emax; lia).
  right. by eexists _, _.
Qed.

Lemma digits2_pos_iter_xO p d :
  digits2_pos (Pos.iter xO p d) = (digits2_pos p + d)%positive.
Proof.
  induction d as [| d IH] using Pos.peano_ind.
  - simpl. by rewrite Pos.add_1_r.
  - rewrite Pos.iter_succ. simpl. by rewrite IH, Pos.add_succ_r.
Qed.

Lemma Prim2SF_mantissa x s m e :
  Prim2SF x = S754_finite s m e → Z.pos m < 2 ^ 53.
Proof.
  intros Hx. pose proof (Prim2SF_valid x) as Hvalid. rewrite Hx in Hvalid.
  unfold valid_binary, bounded, canonical_mantissa in Hvalid.
  apply andb_prop in Hvalid as [Hcanon _].
  apply Z.eqb_eq in Hcanon.
  assert (Hd : Z.pos (digits2_pos m) ≤ 53).
  { unfold fexp, emin, prec, emax in Hcanon. lia. }
  rewrite digits2_pos_size in Hd.
  pose proof (Pos.size_gt m) as Hsize.
  apply Pos2Z.pos_lt_pos in Hsize. rewrite Pos2Z.inj_pow in Hsize.
  eapply Z.lt_le_trans; [exact Hsize |].
  apply Z.pow_le_mono_r; lia.
Qed.

Lemma Prim2SF_of_small_int n :
  1 ≤ n < 2 ^ 31 →
  ∃ m e, Prim2SF (of_uint63 (of_Z n)) = S754_finite false m e
         ∧ Z.pos (digits2_pos m) = 53 ∧ -52 ≤ e ≤ 0.
Proof.
  intros Hn. rewrite of_uint63_spec, Uint63.of_Z_spec.
  rewrite Z.mod_small by (change wB with (2 ^ 63); split; [lia |];
    apply Z.lt_trans with (2 ^ 31); [lia | reflexivity]).
  destruct n as [|p|p]; [lia | | lia].
  pose proof (Zdigits2_bound (Z.pos p) 31 ltac:(lia) ltac:(lia)) as Hdp.
  simpl in Hdp.
  unfold binary_normalize, binary_round.
  set (dp := Z.pos (digits2_pos p)) in *.
  assert (Hfexp : fexp prec emax (dp + 0) = dp - 53).
  { unfold fexp, emin, prec, emax. lia. }
  rewrite Hfexp. unfold shl_align.
  destruct (dp - 53 - 0) as [|d|d] eqn:Hd; [lia | lia |].
  exists (Pos.iter xO p d), (dp - 53).
  assert (Hdigits : Z.pos (digits2_pos (Pos.iter xO p d)) = 53).
  { rewrite digits2_pos_iter_xO, Pos2Z.inj_add. fold dp. lia. }
  split; [| split; [assumption | lia]].
  unfold binary_round_aux, shr_fexp. cbn [Zdigits2]. rewrite Hdigits.
  assert (H0 : fexp prec emax (53 + (dp - 53)) - (dp - 53) = 0).
  { unfold fexp, emin, prec, emax. lia. }
  rewrite H0. cbn [shr shr_record_of_loc round_nearest_even shr_m
                   loc_of_shr_record shr_r shr_s Zdigits2].
  rewrite Hdigits, H0. cbn [shr shr_record_of_loc shr_m].
  by rewrite (proj2 (Z.leb_le (dp - 53) (emax - prec)))
    by (unfold prec, emax; lia).
Qed.

Lemma SFdiv_one_class m2 e2 :
  Z.pos (digits2_pos m2) = 53 → -52 ≤ e2 ≤ 0 →
  finite_below false 107
    (SFdiv prec emax (S754_finite false 4503599627370496 (-52))
       (S754_finite false m2 e2)).
Proof.
  intros Hd2 He2. unfold SFdiv, SFdiv_core_binary. cbn [xorb].
  change (Zdigits2 (Z.pos 4503599627370496)) with 53.
  cbn [Zdigits2]. rewrite Hd2.
  set (e' := Z.min _ _).
  assert (He' : e' = -105 - e2).
  { subst e'. unfold fexp, emin, prec, emax. lia. }
  assert (Hs : -52 - e2 - e' = 53) by lia.
  rewrite Hs. cbn match.
  pose proof (Z_div_mod (Z.shiftl (Z.pos 4503599627370496) 53) (Z.pos m2)
                ltac:(lia)) as Hdiv.
  destruct (Z.div_eucl _ (Z.pos m2)) as [q r].
  change (Z.shiftl (Z.pos 4503599627370496) 53) with (2 ^ 105) in Hdiv.
  apply (binary_round_aux_class false q e' _ 0); [| lia | lia].
  change (2 ^ 106) with (2 * 2 ^ 105). nia.
Qed.

Lemma reciprocal_class n :
  1 ≤ n < 2 ^ 31 →
  finite_below false 107 (Prim2SF (PrimFloat.div 1 (of_uint63 (of_Z n)))).
Proof.
  intros Hn. rewrite FloatAxioms.div_spec.
  destruct (Prim2SF_of_small_int n Hn) as (m & e & -> & Hd & He).
  change (Prim2SF 1) with (S754_finite false 4503599627370496 (-52)).
  by apply SFdiv_one_class.
Qed.

Lemma mul_zero_by_reciprocal n :
  1 ≤ n < 2 ^ 31 →
  PrimFloat.mul 0 (PrimFloat.div 1 (of_uint63 (of_Z n))) = 0%float.
Proof.
  intros Hn. apply Prim2SF_inj. rewrite FloatAxioms.mul_spec.
  change (Prim2SF 0) with (S754_zero false).
  by destruct (reciprocal_class n Hn) as [-> | (m & e & -> & _)].
Qed.

Lemma product_class y n :
  0 ≤ y < 2 ^ 31 → 1 ≤ n < 2 ^ 31 →
  finite_below false 214
    (Prim2SF (PrimFloat.mul (of_uint63 (of_Z y))
                (PrimFloat.div 1 (of_uint63 (of_Z n))))).
Proof.
  intros Hy Hn. destruct (decide (y = 0)) as [-> | Hy0].
  { change (of_uint63 (of_Z 0)) with 0%float.
    rewrite mul_zero_by_reciprocal by assumption. by left. }
  rewrite FloatAxioms.mul_spec.
  destruct (Prim2SF_of_small_int y ltac:(lia)) as (my & ey & Hy' & Hdy & Hey).
  pose proof (Prim2SF_mantissa _ _ _ _ Hy') as Hmy. rewrite Hy'.
  pose proof (reciprocal_class n Hn) as [Hf | (mf & ef & Hf & Hef)].
  { rewrite Hf. by left. }
  pose proof (Prim2SF_mantissa _ _ _ _ Hf) as Hmf. rewrite Hf.
  unfold SF64mul, SFmul. cbn [xorb].
  apply (binary_round_aux_class false _ _ _ 107); [| lia | lia].
  rewrite Pos2Z.inj_mul. change (2 ^ 106) with (2 ^ 53 * 2 ^ 53). nia.
Qed.

Lemma SFcompare_finite_antisym m1 e1 m2 e2 :
  SFltb (S754_finite false m1 e1) (S754_finite false m2 e2) = false →
  SFleb (S754_finite false m2 e2) (S754_finite false m1 e1) = true.
Proof.
  unfold SFltb, SFleb, SFcompare.
  rewrite (Z.compare_antisym e1 e2).
  destruct (e1 ?= e2); cbn; try done.
  pose proof (Pos.compare_cont_antisym m1 m2 Eq) as Hopp. cbn [CompOpp] in Hopp.
  rewrite <- Hopp. by destruct (Pos.compare_cont Eq m1 m2).
Qed.

Lemma CLAMP_unit_range x E :
  finite_below false E (Prim2SF x) →
  PrimFloat.leb 0 (CLAMP x 0 1) = true ∧ PrimFloat.leb (CLAMP x 0 1) 1 = true.
Proof.
  intros Hx. unfold CLAMP.
  destruct (PrimFloat.ltb 1 x) eqn:Hhigh; [by split |].
  destruct (PrimFloat.ltb x 0) eqn:Hlow; [by split |].
  rewrite FloatAxioms.ltb_spec in Hhigh. rewrite !FloatAxioms.leb_spec.
  change (Prim2SF 1) with (S754_finite false 4503599627370496 (-52)) in *.
  change (Prim2SF 0) with (S754_zero false).
  destruct Hx as [Hx | (m & e & Hx & _)]; rewrite Hx in *; [by split |].
  split; [reflexivity |]. by apply SFcompare_finite_antisym.
Qed.

(** ** The hue of a row *)

Lemma gdouble_of_int_nonneg z :
  0 ≤ z → gdouble_of_int z = PrimFloat.of_uint63 (Uint63.of_Z z).
Proof.
  intros Hz. unfold gdouble_of_int. by rewrite (proj2 (Z.ltb_ge z 0)).
Qed.

Lemma row_hue_top height :
  1 < height ≤ G_MAXINT → row_hue height 0 = 0%float.
Proof.
  intros Hh. unfold row_hue, G_MAXINT in *.
  rewrite (gdouble_of_int_nonneg (height - 1)) by lia.
  change (gdouble_of_int 0) with 0%float.
  rewrite mul_zero_by_reciprocal by lia. reflexivity.
Qed.

Lemma row_hue_range height hue_y :
  1 < height ≤ G_MAXINT → 0 ≤ hue_y < height →
  PrimFloat.leb 0 (row_hue height hue_y) = true
  ∧ PrimFloat.leb (row_hue height hue_y) 1 = true.
Proof.
  intros Hh Hy. unfold row_hue, G_MAXINT in *.
  rewrite (gdouble_of_int_nonneg (height - 1)) by lia.
  rewrite (gdouble_of_int_nonneg hue_y) by lia.
  apply (CLAMP_unit_range _ 214), product_class; lia.
Qed.

(** C6, amended: for a hue scale and a trough more than one pixel wide
    and high, the call paints one [width] by [height] image in the R8G8B8
    format in which every pixel of row [row] has the same three bytes:
    the channels [r], [g], [b] that [gtk_hsv_to_rgb] gives for saturation
    1, value 1 and the hue [CLAMP (row * f, 0, 1)], where the step
    [f = 1.0 / (height - 1)] and the product are rounded to [gdouble],
    each scaled by 255, clamped into 0 .. 255 and cut to a byte. The hue
    lies between 0 and 1 in every row and is 0 in the top row. When the
    byte count [width * height * 3] does not fit an [int], the arithmetic
    of the call is undefined. *)
Theorem hue_trough_paints_row_hues :
  ∀ (gtk_hsv_to_rgb : float → float → float → float * float * float)
    (scale : GtkColorScale) (snapshot : GtkSnapshot) (x y width height : Z),
    type scale = GTK_COLOR_SCALE_HUE →
    1 < width →
    1 < height →
    let result :=
      gtk_color_scale_snapshot_trough gtk_hsv_to_rgb scale snapshot
        x y width height in
    let byte (c : float) := guchar_of_gdouble (CLAMP (PrimFloat.mul c 255) 0 255) in
    (width * height * 3 ≤ G_MAXINT →
     ∃ data,
       result
       = Done (snapshot
               ++ [texture_node
                     (Texture width height GDK_MEMORY_R8G8B8 data (3 * width))
                     (GRAPHENE_RECT_INIT x y width height)])
       ∧ length data = Z.to_nat (width * height * 3)
       ∧ (∀ (row col : Z) (r g b : float),
            0 ≤ row < height → 0 ≤ col < width →
            gtk_hsv_to_rgb (row_hue height row) 1%float 1%float = (r, g, b) →
            let pixel := row * (3 * width) + 3 * col in
            data !! Z.to_nat pixel = Some (byte r)
            ∧ data !! Z.to_nat (pixel + 1) = Some (byte g)
            ∧ data !! Z.to_nat (pixel + 2) = Some (byte b)
            ∧ 0 ≤ byte r < 256 ∧ 0 ≤ byte g < 256 ∧ 0 ≤ byte b < 256)
       ∧ (∀ row : Z, 0 ≤ row < height →
            PrimFloat.leb 0 (row_hue height row) = true
            ∧ PrimFloat.leb (row_hue height row) 1 = true)
       ∧ row_hue height 0 = 0%float)
    ∧ (G_MAXINT < width * height * 3 → result = Fault SIGNED_OVERFLOW).
Proof.
  intros hsv scale snapshot x y width height Htype Hw Hh result byte.
  subst result. unfold gtk_color_scale_snapshot_trough.
  rewrite guard_passed by lia. rewrite Htype. split.
  - intros Hfit.
    assert (Hint : 1 < height ≤ G_MAXINT) by (unfold G_MAXINT in *; nia).
    rewrite snapshot_trough_hue_fits by assumption.
    eexists. split; [by rewrite (Z.mul_comm 3 width) |].
    split; [apply length_hue_data; lia |].
    split; [| split; [intros row Hrow; by apply row_hue_range
                     | by apply row_hue_top]].
    intros row col r g b Hrow Hcol Hrgb.
    pose proof (λ k, hue_data_lookup hsv width height
                  (PrimFloat.div 1 (gdouble_of_int (height - 1))) row col k
                  Hrow Hcol) as Hpix.
    fold (row_hue height row) in Hpix. unfold hue_pixel in Hpix.
    rewrite Hrgb in Hpix. fold (byte r) (byte g) (byte b) in Hpix.
    rewrite (Z.mul_comm 3 width).
    pose proof (Hpix 0%nat ltac:(lia)) as H0.
    pose proof (Hpix 1%nat ltac:(lia)) as H1.
    pose proof (Hpix 2%nat ltac:(lia)) as H2.
    rewrite Z.add_0_r in H0.
    replace (row * (width * 3) + 3 * col + 1)
      with (row * (width * 3) + 3 * col + Z.of_nat 1) by lia.
    replace (row * (width * 3) + 3 * col + 2)
      with (row * (width * 3) + 3 * col + Z.of_nat 2) by lia.
    split; [exact H0 |]. split; [exact H1 |]. split; [exact H2 |].
    split; [apply guchar_of_gdouble_range |].
    split; apply guchar_of_gdouble_range.
  - intros Hbig. by apply snapshot_trough_hue_overflows.
Qed.

Lemma hue_trough_paints_row_hues_witness :
  let scale := ColorScale (RGBA 0 0 0 1) GTK_COLOR_SCALE_HUE
                 GTK_ORIENTATION_VERTICAL GTK_TEXT_DIR_LTR false in
  type scale = GTK_COLOR_SCALE_HUE
  ∧ 1 < 2 ∧ 1 < 50
  ∧ 2 * 50 * 3 ≤ G_MAXINT
  ∧ ∃ data,
      gtk_color_scale_snapshot_trough (λ h s v, (h, s, v)) scale [] 0 0 2 50
      = Done [texture_node (Texture 2 50 GDK_MEMORY_R8G8B8 data (3 * 2))
                (GRAPHENE_RECT_INIT 0 0 2 50)]
      ∧ length data = Z.to_nat (2 * 50 * 3)
      ∧ row_hue 50 0 = 0%float.
Proof.
  intros scale.
  assert (Htype : type scale = GTK_COLOR_SCALE_HUE) by reflexivity.
  assert (Hw : 1 < 2) by lia.
  assert (Hh : 1 < 50) by lia.
  assert (Hfit : 2 * 50 * 3 ≤ G_MAXINT) by (unfold G_MAXINT; lia).
  split; [exact Htype |]. split; [exact Hw |]. split; [exact Hh |].
  split; [exact Hfit |].
  destruct (proj1 (hue_trough_paints_row_hues (λ h s v, (h, s, v)) scale []
                     0 0 2 50 Htype Hw Hh) Hfit)
    as (data & Heq & Hlen & _ & _ & Htop).
  exists data. split; [exact Heq |]. split; [exact Hlen | exact Htop].
Defined.

(** C6, as stated, gives the hue of a row as the quotient
    [y / (height - 1)], which is 1 in the bottom row. For a trough 50
    pixels high the code computes the hue of the bottom row, row 49, as
    [49 * (1.0 / 49)], which is 0.99999999999999989: less than 1, and not
    the clamped quotient [49 / 49]. *)
Lemma bottom_row_hue_falls_short_of_1 :
  row_hue 50 49 = 0.99999999999999989%float
  ∧ PrimFloat.ltb (row_hue 50 49) 1 = true
  ∧ CLAMP (PrimFloat.div (gdouble_of_int 49) (gdouble_of_int (50 - 1))) 0 1
    = 1%float
  ∧ row_hue 50 49
    ≠ CLAMP (PrimFloat.div (gdouble_of_int 49) (gdouble_of_int (50 - 1))) 0 1.
Proof.
  split; [vm_compute; reflexivity |]. split; [vm_compute; reflexivity |].
  split; [vm_compute; reflexivity |].
  intros Heq.
  apply (f_equal (λ h, PrimFloat.ltb h 1)) in Heq.
  vm_compute in Heq. discriminate.
Qed.

End ColorScaleHue.
